(** * Retrieval core of the simplified privateGPT scripts

    A shallow embedding of [simple_ingest.py] (chunker and persistence
    writer) and [simple_privateGPT.py] (persistence reader, keyword search
    and context formatter), with the properties of the chunking, scoring
    and persistence format proved over it.

    Text is modelled as a list of characters.  A character is a code point
    below 256, carried by [ascii]; the whitespace and lower-casing tables
    below are Python's for that range. *)

From Stdlib Require Import ZArith QArith Ascii String DecimalString Lia.
From stdpp Require Import base tactics option list sorting gmap strings.

Local Open Scope Z_scope.
Local Open Scope nat_scope.
Local Open Scope list_scope.

Abbreviation str := (list ascii).

(** A string literal as a [str]. *)
Notation "$ s" := (list_ascii_of_string s) (at level 1, format "$ s").

(** ** Exceptions *)

Inductive exn := ValueError | ZeroDivisionError.

Inductive result (A : Type) :=
| Ok (a : A)
| Raise (e : exn).
Arguments Ok {A} a.
Arguments Raise {A} e.

#[global] Instance result_ret : MRet result := fun _ a => Ok a.

#[global] Instance result_bind : MBind result := fun _ _ k r =>
  match r with
  | Ok a => k a
  | Raise e => Raise e
  end.

(** A [for] loop whose body may raise: the state is threaded from left to
    right and the first exception ends the loop. *)
Fixpoint for_each {A S} (body : S -> A -> result S) (l : list A) (s : S)
  : result S :=
  match l with
  | [] => Ok s
  | a :: l' => s' ← body s a; for_each body l' s'
  end.

(** ** The Python built-ins the scripts use *)

Module Py.

Definition nl : ascii := "010"%char.

(** [str.isspace] on one character. *)
Definition is_space (c : ascii) : bool :=
  let n := nat_of_ascii c in
  ((9 <=? n) && (n <=? 13)) || ((28 <=? n) && (n <=? 32))
  || (n =? 133) || (n =? 160).

(** [str.lower] on one character. *)
Definition lower_char (c : ascii) : ascii :=
  let n := nat_of_ascii c in
  if ((65 <=? n) && (n <=? 90))
     || ((192 <=? n) && (n <=? 222) && negb (n =? 215))
  then ascii_of_nat (n + 32) else c.

Definition lower (s : str) : str := map lower_char s.

(** [str.lstrip()], [str.rstrip()] and [str.strip()]. *)
Fixpoint lstrip (s : str) : str :=
  match s with
  | [] => []
  | c :: s' => if is_space c then lstrip s' else s
  end.

Definition rstrip (s : str) : str := rev (lstrip (rev s)).

Definition strip (s : str) : str := lstrip (rstrip s).

(** [str.split()] without a separator: the maximal runs of characters
    that are not whitespace.  [cur] is the word being read. *)
Fixpoint split_ws_from (cur : str) (s : str) : list str :=
  match s with
  | [] => match cur with [] => [] | _ => [cur] end
  | c :: s' =>
      if is_space c
      then match cur with
           | [] => split_ws_from [] s'
           | _ => cur :: split_ws_from [] s'
           end
      else split_ws_from (cur ++ [c]) s'
  end.

Definition split_ws (s : str) : list str := split_ws_from [] s.

(** [s.startswith(sep)]. *)
Fixpoint starts_with (sep s : str) : bool :=
  match sep, s with
  | [], _ => true
  | _ :: _, [] => false
  | a :: sep', b :: s' =>
      if decide (a = b) then starts_with sep' s' else false
  end.

(** [s.find(sep)]: the index of the leftmost occurrence. *)
Fixpoint find (sep s : str) : option nat :=
  if starts_with sep s then Some 0
  else match s with
       | [] => None
       | _ :: s' => S <$> find sep s'
       end.

(** [s.split(sep)] for a separator that is not empty (the scripts only
    pass literals): cut at the leftmost occurrence and go on after it.
    The search stops once the text is used up, so a fuel of one more
    than its length is never exhausted. *)
Fixpoint split_loop (fuel : nat) (sep s : str) : list str :=
  match fuel with
  | 0 => [s]
  | S fuel' =>
      match find sep s with
      | None => [s]
      | Some i => take i s :: split_loop fuel' sep (drop (i + length sep) s)
      end
  end.

Definition split (sep s : str) : list str :=
  split_loop (S (length s)) sep s.

(** [sep.join(parts)]. *)
Fixpoint join (sep : str) (parts : list str) : str :=
  match parts with
  | [] => []
  | [p] => p
  | p :: ps => p ++ sep ++ join sep ps
  end.

(** [s.replace(old, new)] for [old] not empty: every occurrence found
    by the left-to-right search is replaced, which is
    [new.join(s.split(old))]. *)
Definition replace (old new s : str) : str := join new (split old s).

(** An index of a slice, clamped to the length of the sequence. *)
Definition clamp (n : nat) (i : Z) : nat :=
  if (i <? 0)%Z then Z.to_nat (Z.max 0 (Z.of_nat n + i))
  else Nat.min n (Z.to_nat i).

(** [s[lo:hi]]. *)
Definition slice {A} (s : list A) (lo hi : Z) : list A :=
  let l := clamp (length s) lo in
  let h := clamp (length s) hi in
  take (h - l) (drop l s).

(** [range(start, stop, step)]: a zero step raises; otherwise the
    values [start], [start + step], ... that lie before [stop] in the
    direction of the step.  At most [|stop - start|] values exist. *)
Fixpoint range_loop (fuel : nat) (i stop step : Z) : list Z :=
  match fuel with
  | 0 => []
  | S fuel' =>
      if (if (0 <? step)%Z then (i <? stop)%Z else (stop <? i)%Z)
      then i :: range_loop fuel' (i + step)%Z stop step
      else []
  end.

Definition range (start stop step : Z) : result (list Z) :=
  if (step =? 0)%Z then Raise ValueError
  else Ok (range_loop (Z.to_nat (Z.abs (stop - start))) start stop step).

(** [str(n)] for a natural number. *)
Definition str_of_nat (n : nat) : str :=
  list_ascii_of_string (NilZero.string_of_uint (Nat.to_uint n)).

(** ['=' * n]. *)
Definition repeat_char (c : ascii) (n : nat) : str := replicate n c.

(** [enumerate(l, start)]. *)
Definition enumerate {A} (start : nat) (l : list A) : list (nat * A) :=
  zip (seq start (length l)) l.

(** [l.sort(key=key, reverse=True)].  The sort is stable, and with
    [reverse=True] elements of equal key still keep their order; the
    stable sort of a list by a total preorder is unique, so an insertion
    sort stands for it: [x], which came first, goes before every
    element whose key is not larger. *)
Fixpoint insert_desc {A} (key : A -> Q) (x : A) (l : list A) : list A :=
  match l with
  | [] => [x]
  | y :: l' =>
      if Qle_bool (key y) (key x) then x :: y :: l'
      else y :: insert_desc key x l'
  end.

Definition sort_desc {A} (key : A -> Q) (l : list A) : list A :=
  foldr (insert_desc key) [] l.

(** [a / b] on integers that are not negative.  The float Python
    returns is the correctly rounded value of this rational; among
    quotients [a / b] with [a <= b] and one denominator below [2^53],
    rounding keeps both the order and the distinctness. *)
Definition div (a b : nat) : result Q :=
  if b =? 0 then Raise ZeroDivisionError
  else Ok (Z.of_nat a # Pos.of_nat b).

Definition cr : ascii := "013"%char.

(** Reading a file opened in text mode: a carriage return, with the
    newline after it when there is one, arrives as one newline.
    (Writing on POSIX leaves the text as it is.) *)
Fixpoint universal_newlines (raw : str) : str :=
  match raw with
  | [] => []
  | c :: raw' =>
      if decide (c = cr)
      then match raw' with
           | d :: raw'' =>
               if decide (d = nl) then nl :: universal_newlines raw''
               else nl :: universal_newlines raw'
           | [] => [nl]
           end
      else c :: universal_newlines raw'
  end.

End Py.

(** ** simple_ingest.py *)

(** The windows [doc[i:i + chunk_size]] the chunker looks at, before the
    length filter. *)
Definition candidate_windows (doc : str) (chunk_size : Z) : result (list str) :=
  idxs ← Py.range 0 (Z.of_nat (length doc)) chunk_size;
  Ok (map (fun i => Py.slice doc i (i + chunk_size)%Z) idxs).

Definition chunk_documents (documents : list str) (chunk_size : Z)
  : result (list str) :=
  for_each
    (fun chunks doc =>
       idxs ← Py.range 0 (Z.of_nat (length doc)) chunk_size;
       Ok (fold_left
             (fun chunks i =>
                let chunk := Py.slice doc i (i + chunk_size)%Z in
                if 50 <? length (Py.strip chunk)
                then chunks ++ [chunk] else chunks)
             idxs chunks))
    documents [].


(** The line of 50 [=] that closes a chunk in the file. *)
Definition separator : str := Py.repeat_char "=" 50.

(** The file is the text written so far; [f.write] appends to it.  The
    result is the content of the file when it is closed. *)
Definition save_processed_documents (chunks : list str) : str :=
  fold_left
    (fun f '(i, chunk) =>
       let f := f ++ $"=== CHUNK " ++ Py.str_of_nat (i + 1) ++ $" ===" ++ [Py.nl] in
       let f := f ++ chunk in
       f ++ ([Py.nl; Py.nl] ++ separator ++ [Py.nl; Py.nl]))
    (Py.enumerate 0 chunks) [].

(** ** simple_privateGPT.py *)

(** [file] is the stored text of the processed-documents file, [None]
    when the path does not exist. *)
Definition load_processed_documents (file : option str) : list str :=
  match file with
  | None => []
  | Some raw =>
      let content := Py.universal_newlines raw in
      let chunk_parts := Py.split $"=== CHUNK" content in
      fold_left
        (fun chunks part =>
           let lines := Py.split [Py.nl] part in
           let chunk_content := Py.strip (Py.join [Py.nl] (drop 1 lines)) in
           let chunk_content :=
             Py.strip (Py.replace separator [] chunk_content) in
           match chunk_content with
           | [] => chunks
           | _ => chunks ++ [chunk_content]
           end)
        (drop 1 chunk_parts) []
  end.

(** [set(text.lower().split())]. *)
Definition word_set (text : str) : gset str :=
  list_to_set (Py.split_ws (Py.lower text)).

Definition simple_search (query : str) (chunks : list str) (max_results : Z)
  : result (list (str * Q)) :=
  let query_words := word_set query in
  results ←
    for_each
      (fun results chunk =>
         let chunk_words := word_set chunk in
         let overlap := size (query_words ∩ chunk_words) in
         if 0 <? overlap
         then score ← Py.div overlap (size query_words);
              Ok (results ++ [(chunk, score)])
         else Ok results)
      chunks [];
  let results := Py.sort_desc snd results in
  Ok (Py.slice results 0 max_results).

Section Formatting.

(** [f"{score:.2f}"], the float printed with two decimals. *)
Variable format_2f : Q -> str.

Definition no_results : str :=
  $"No relevant information found in the documents.".

(** What the loop of [format_context] adds for the result of rank
    [i]. *)
Definition context_entry (ir : nat * (str * Q)) : str :=
  let '(i, (chunk, score)) := ir in
  $"Document " ++ Py.str_of_nat i
  ++ $" (relevance: " ++ format_2f score ++ $"):"
  ++ [Py.nl]
  ++ (if 500 <? length chunk then Py.slice chunk 0 500 ++ $"..." else chunk)
  ++ [Py.nl; Py.nl].

Definition format_context (search_results : list (str * Q)) : str :=
  match search_results with
  | [] => no_results
  | _ =>
      let context :=
        $"Based on the following information from your documents:"
         ++ [Py.nl; Py.nl] in
      fold_left
        (fun context '(i, (chunk, score)) =>
           let display_chunk :=
             if 500 <? length chunk
             then Py.slice chunk 0 500 ++ $"..." else chunk in
           context ++ ($"Document " ++ Py.str_of_nat i
                       ++ $" (relevance: " ++ format_2f score ++ $"):"
                       ++ [Py.nl] ++ display_chunk ++ [Py.nl; Py.nl]))
        (Py.enumerate 1 search_results) context
  end.

End Formatting.

(** The number of distinct query words a chunk contains. *)
Definition overlap (query chunk : str) : nat :=
  size (word_set query ∩ word_set chunk).

(** The results of the scoring loop of [simple_search], in input order. *)
Definition scored (query : str) (chunks : list str) : list (str * Q) :=
  map (fun chunk =>
         (chunk, Z.of_nat (overlap query chunk)
                 # Pos.of_nat (size (word_set query))))
      (filter (fun chunk => 0 < overlap query chunk) chunks).

(** The order a descending sort by [key] puts its elements in. *)
Definition key_ge {A} (key : A -> Q) (a b : A) : Prop := (key b <= key a)%Q.

#[global] Instance Qeq_decision (x y : Q) : Decision (x == y)%Q := Qeq_dec x y.

(** The text that starts a chunk in the file and that the reader splits
    on. *)
Definition marker : str := $"=== CHUNK".

(** What [save_processed_documents] writes for the chunk of number [n]
    after the marker, and the whole of it. *)
Definition chunk_tail (n : nat) (chunk : str) : str :=
  ($" " ++ Py.str_of_nat n ++ $" ===") ++ [Py.nl]
  ++ chunk ++ [Py.nl; Py.nl] ++ separator ++ [Py.nl; Py.nl].

Fixpoint blocks (start : nat) (chunks : list str) : str :=
  match chunks with
  | [] => []
  | chunk :: chunks' =>
      marker ++ chunk_tail (start + 1) chunk ++ blocks (S start) chunks'
  end.

Fixpoint tails (start : nat) (chunks : list str) : list str :=
  match chunks with
  | [] => []
  | chunk :: chunks' => chunk_tail (start + 1) chunk :: tails (S start) chunks'
  end.

(** A chunk the file format can carry: it holds neither the marker nor
    the separator line nor a carriage return, and it is not blank. *)
Definition storable (chunk : str) : Prop :=
  Py.find marker chunk = None
  ∧ Py.find separator chunk = None
  ∧ (Py.cr ∉ chunk)
  ∧ Py.strip chunk ≠ [].

#[global] Instance storable_dec (chunk : str) : Decision (storable chunk).
Proof. unfold storable. apply _. Defined.

(** The search for [sep] passes over [u], whatever follows it. *)
Definition skips (sep u : str) : Prop :=
  ∀ r, Py.find sep (u ++ r) = (fun j => length u + j) <$> Py.find sep r.

Definition digits : str := $"0123456789".

(** What the loop of [load_processed_documents] makes of one part. *)
Definition parse_part (part : str) : str :=
  Py.strip (Py.replace separator []
              (Py.strip (Py.join [Py.nl] (drop 1 (Py.split [Py.nl] part))))).

(** A text of whitespace only. *)
Definition blank (s : str) : Prop := Forall (fun c => Py.is_space c = true) s.

(** A text that is not empty and neither begins nor ends with
    whitespace. *)
Definition trimmed (s : str) : Prop :=
  (∃ a s', s = a :: s' ∧ Py.is_space a = false)
  ∧ (∃ s' b, s = s' ++ [b] ∧ Py.is_space b = false).

(** The length filter of [chunk_documents]. *)
Definition kept (chunk : str) : bool := 50 <? length (Py.strip chunk).

(** The document of the chunking scenario. *)
Definition fox : str := $"The quick brown fox jumps over the lazy dog".

(** A chunk that quotes a chunk header. *)
Definition quoting : str :=
  $"the header === CHUNK 1 ===" ++ [Py.nl] ++ $"opens a chunk".

(** A document of 59 characters, 54 of them between the blanks. *)
Definition padded : str :=
  $"   a window that is long enough to pass the length filter  ".

(** The windows of one document that pass the length filter. *)
Definition kept_windows (chunk_size : Z) (doc : str) : list str :=
  filter (fun w => kept w = true)
    (map (fun i => Py.slice doc i (i + chunk_size)%Z)
         (Py.range_loop (Z.to_nat (Z.abs (Z.of_nat (length doc) - 0)))
                        0 (Z.of_nat (length doc)) chunk_size)).

(** The score [simple_search] gives a chunk that shares a word with the
    query. *)
Definition score_of (query chunk : str) : Q :=
  Z.of_nat (overlap query chunk) # Pos.of_nat (size (word_set query)).

(** A document whose windows the file format can carry. *)
Definition clean (doc : str) : Prop :=
  Py.find marker doc = None
  ∧ Py.find separator doc = None
  ∧ (Py.cr ∉ doc).

#[global] Instance clean_dec (doc : str) : Decision (clean doc).
Proof. unfold clean. apply _. Defined.

(** ** The loader and the two [main] functions

    The outside world is a parameter: the file system through [glob],
    [read_text] and [pdf_pages], the language model through [llm], the
    user through the list of events [input] yields.  What the functions
    print is left out, but for the block a chat turn displays. *)

Module Os.

(** [os.path.exists], [glob.glob(pattern, recursive=True)], reading a
    text file whole ([None] when it raises) and the text of the pages of
    a PDF ([None] when opening or extracting raises). *)
Record files := {
  exists_path : str -> bool;
  glob : str -> list str;
  read_text : str -> option str;
  pdf_pages : str -> option (list str)
}.

(** [os.path.join(a, b)] on POSIX. *)
Definition path_join (a b : str) : str :=
  match b with
  | "/"%char :: _ => b
  | _ => match last a with
         | None => b
         | Some "/"%char => a ++ b
         | Some _ => a ++ $"/" ++ b
         end
  end.

End Os.

(** [s.endswith(suffix)]. *)
Definition ends_with (suffix s : str) : bool :=
  Py.starts_with (rev suffix) (rev s).

(** The document [load_documents] makes of one file, when it can be
    read. *)
Definition document_of (fs : Os.files) (file_path : str) : option str :=
  if ends_with $".pdf" file_path
  then pages ← Os.pdf_pages fs file_path;
       Some ($"File: " ++ file_path ++ [Py.nl; Py.nl]
             ++ fold_left (fun text page => text ++ page) pages [])
  else content ← Os.read_text fs file_path;
       Some ($"File: " ++ file_path ++ [Py.nl; Py.nl] ++ content).

Definition load_documents (fs : Os.files) (source_dir : str) : list str :=
  let extensions := [$".txt"; $".md"; $".pdf"] in
  let all_files :=
    fold_left
      (fun all_files ext =>
         all_files ++ Os.glob fs (Os.path_join source_dir ($"**/*" ++ ext)))
      extensions [] in
  fold_left
    (fun documents file_path =>
       if ends_with $".pdf" file_path
       then match Os.pdf_pages fs file_path with
            | Some pages =>
                let text := fold_left (fun text page => text ++ page) pages [] in
                documents ++ [$"File: " ++ file_path ++ [Py.nl; Py.nl] ++ text]
            | None => documents
            end
       else match Os.read_text fs file_path with
            | Some content =>
                documents ++ [$"File: " ++ file_path ++ [Py.nl; Py.nl] ++ content]
            | None => documents
            end)
    all_files [].

Definition create_prompt (query context : str) : str :=
  $"You are a helpful assistant that answers questions based on provided documents."
  ++ [Py.nl; Py.nl]
  ++ $"Context from documents:" ++ [Py.nl]
  ++ context ++ [Py.nl; Py.nl]
  ++ $"Question: " ++ query ++ [Py.nl; Py.nl]
  ++ $"Please provide a helpful answer based on the information in the documents. If the documents don't contain relevant information, please say so clearly."
  ++ [Py.nl; Py.nl]
  ++ $"Answer:".

(** The language model: whether the client library could be imported
    ([OLLAMA_AVAILABLE]), and [Ollama(model=model).invoke(prompt)],
    [None] when it raises. *)
Record ollama := {
  available : bool;
  invoke : str -> str -> option str
}.

(** What [query_ollama] returns: the response, or one of its two error
    messages (their text holds the exception and a character outside
    the modelled range). *)
Inductive answer :=
| Response (text : str)
| NotAvailable
| QueryError.

Definition query_ollama (o : ollama) (prompt : str) (model : str) : answer :=
  if negb (available o) then NotAvailable
  else match invoke o model prompt with
       | Some response => Response response
       | None => QueryError
       end.

(** What [input] yields: a line, or a [KeyboardInterrupt]. *)
Inductive event :=
| Line (text : str)
| Interrupt.

(** The block displayed for an answered question. *)
Record turn := {
  turn_query : str;
  turn_prompt : str;
  turn_answer : answer;
  turn_found : nat
}.

Module SimpleIngest.

(** The processed-documents file after the run; [old] is the file
    before it. *)
Definition main (fs : Os.files) (old : option str) : option str :=
  let source_dir := $"source_documents" in
  if negb (Os.exists_path fs source_dir) then old
  else
    let documents := load_documents fs source_dir in
    match documents with
    | [] => old
    | _ =>
        match chunk_documents documents 1000 with
        | Ok chunks => Some (save_processed_documents chunks)
        | Raise _ => old
        end
    end.

End SimpleIngest.

Module SimplePrivateGPT.

(** The interactive loop, over the events still to come.  An exception
    other than the interrupt is printed and the loop goes on. *)
Fixpoint chat_loop (format_2f : Q -> str) (o : ollama) (chunks : list str)
    (events : list event) : list turn :=
  match events with
  | [] => []
  | Interrupt :: _ => []
  | Line text :: events' =>
      let query := Py.strip text in
      if decide (Py.lower query = $"exit") then []
      else if decide (query = []) then chat_loop format_2f o chunks events'
      else
        match simple_search query chunks 4 with
        | Raise _ => chat_loop format_2f o chunks events'
        | Ok [] => chat_loop format_2f o chunks events'
        | Ok search_results =>
            let context := format_context format_2f search_results in
            let prompt := create_prompt query context in
            let response := query_ollama o prompt $"mistral" in
            {| turn_query := query; turn_prompt := prompt;
               turn_answer := response;
               turn_found := length search_results |}
            :: chat_loop format_2f o chunks events'
        end
  end.

Definition main (format_2f : Q -> str) (o : ollama) (file : option str)
    (events : list event) : list turn :=
  let chunks := load_processed_documents file in
  match chunks with
  | [] => []
  | _ =>
      if available o
      then match invoke o $"mistral" $"Hello" with
           | Some _ => chat_loop format_2f o chunks events
           | None => []
           end
      else []
  end.

End SimplePrivateGPT.

(** The stripped lines the loop gets to see: those before the first
    interrupt or [exit]. *)
Fixpoint asked (events : list event) : list str :=
  match events with
  | [] => []
  | Interrupt :: _ => []
  | Line text :: events' =>
      if decide (Py.lower (Py.strip text) = $"exit") then []
      else Py.strip text :: asked events'
  end.

(** A source directory with two text files, one of them unreadable, and
    a PDF of two pages; and one with a single short note. *)
Definition sample_files : Os.files := {|
  Os.exists_path := fun path => bool_decide (path = $"source_documents");
  Os.glob := fun pattern =>
    if decide (pattern = $"source_documents/**/*.txt")
    then [$"source_documents/a.txt"; $"source_documents/b.txt"]
    else if decide (pattern = $"source_documents/**/*.pdf")
         then [$"source_documents/c.pdf"]
         else [];
  Os.read_text := fun path =>
    if decide (path = $"source_documents/a.txt") then Some padded else None;
  Os.pdf_pages := fun path => Some [fox; fox]
|}.

Definition short_files : Os.files := {|
  Os.exists_path := fun path => bool_decide (path = $"source_documents");
  Os.glob := fun pattern =>
    if decide (pattern = $"source_documents/**/*.md")
    then [$"source_documents/n.md"] else [];
  Os.read_text := fun path => Some $"a note";
  Os.pdf_pages := fun path => None
|}.

(** A model that answers every prompt but the ones about a dog. *)
Definition sample_ollama : ollama := {|
  available := true;
  invoke := fun model prompt =>
    match Py.find $"dog" prompt with
    | None => Some $"an answer"
    | Some _ => None
    end
|}.

(** * Properties *)

(** ** Slices and ranges *)

Lemma slice_window {A} (s : list A) (i c : nat) :
  Py.slice s (Z.of_nat i) (Z.of_nat i + Z.of_nat c) = take c (drop i s).
Proof.
  unfold Py.slice, Py.clamp.
  destruct (Z.ltb_spec (Z.of_nat i) 0); [lia|].
  destruct (Z.ltb_spec (Z.of_nat i + Z.of_nat c) 0); [lia|].
  rewrite Nat2Z.id, <- Nat2Z.inj_add, Nat2Z.id.
  destruct (decide (i ≤ length s)) as [Hi|Hi].
  - rewrite (Nat.min_r _ i) by done.
    destruct (decide (i + c ≤ length s)).
    + rewrite Nat.min_r by done. f_equal. lia.
    + rewrite Nat.min_l by lia.
      rewrite !take_ge; [done| |]; rewrite length_drop; lia.
  - rewrite !drop_ge by lia. by rewrite !take_nil.
Qed.

Lemma slice_prefix {A} (s : list A) (m : nat) :
  Py.slice s 0 (Z.of_nat m) = take m s.
Proof. apply (slice_window s 0 m). Qed.

Lemma range_loop_lookup fuel i stop step k x :
  (0 < step)%Z →
  Py.range_loop fuel i stop step !! k = Some x →
  x = (i + Z.of_nat k * step)%Z ∧ (x < stop)%Z.
Proof.
  intros Hstep. revert i k.
  induction fuel as [|fuel IH]; intros i k; simpl; [done|].
  destruct (Z.ltb_spec 0 step); [|lia].
  destruct (Z.ltb_spec i stop); [|done].
  destruct k as [|k]; simpl.
  - intros [= <-]. lia.
  - intros Hk. apply IH in Hk. lia.
Qed.

(** The windows taken from offset [i] on make up the rest of the text. *)
Lemma windows_concat_from (doc : str) (c fuel i : nat) :
  0 < c → length doc - i ≤ fuel →
  concat (map (fun j => Py.slice doc j (j + Z.of_nat c)%Z)
              (Py.range_loop fuel (Z.of_nat i) (Z.of_nat (length doc))
                             (Z.of_nat c)))
  = drop i doc.
Proof.
  intros Hc. revert i.
  induction fuel as [|fuel IH]; intros i Hfuel; simpl.
  - rewrite drop_ge; [done|lia].
  - destruct (Z.ltb_spec 0 (Z.of_nat c)); [|lia].
    destruct (Z.ltb_spec (Z.of_nat i) (Z.of_nat (length doc))); simpl.
    + rewrite slice_window, <- Nat2Z.inj_add, IH by lia.
      rewrite <- drop_drop. apply take_drop.
    + rewrite drop_ge; [done|lia].
Qed.

Lemma range_ok start stop step :
  step ≠ 0%Z →
  Py.range start stop step
  = Ok (Py.range_loop (Z.to_nat (Z.abs (stop - start))) start stop step).
Proof.
  intros Hstep. unfold Py.range.
  by destruct (Z.eqb_spec step 0).
Qed.

(** ** The chunker *)

Lemma chunk_loop_filter (doc : str) (chunk_size : Z) idxs chunks :
  fold_left
    (fun chunks i =>
       let chunk := Py.slice doc i (i + chunk_size)%Z in
       if 50 <? length (Py.strip chunk) then chunks ++ [chunk] else chunks)
    idxs chunks
  = chunks ++ filter (fun w => kept w = true)
                     (map (fun i => Py.slice doc i (i + chunk_size)%Z) idxs).
Proof.
  revert chunks. induction idxs as [|i idxs IH]; intros chunks; simpl.
  - by rewrite app_nil_r.
  - rewrite IH, filter_cons. unfold kept.
    destruct (50 <? length (Py.strip _)) eqn:E.
    + rewrite decide_True by done. by rewrite <- app_assoc.
    + rewrite decide_False by done. done.
Qed.

(** [chunk_documents] keeps, document by document, the candidate windows
    that pass the length filter. *)
Lemma chunk_documents_windows (documents : list str) (chunk_size : Z) out :
  chunk_documents documents chunk_size = Ok out →
  ∀ chunk, chunk ∈ out →
    kept chunk = true ∧
    ∃ doc ws, doc ∈ documents ∧ candidate_windows doc chunk_size = Ok ws
              ∧ chunk ∈ ws.
Proof.
  unfold chunk_documents.
  assert (Hgen : ∀ acc,
    for_each
      (fun chunks doc =>
         idxs ← Py.range 0 (Z.of_nat (length doc)) chunk_size;
         Ok (fold_left
               (fun chunks i =>
                  let chunk := Py.slice doc i (i + chunk_size)%Z in
                  if 50 <? length (Py.strip chunk)
                  then chunks ++ [chunk] else chunks)
               idxs chunks))
      documents acc = Ok out →
    ∀ chunk, chunk ∈ out →
      chunk ∈ acc ∨
      (kept chunk = true ∧
       ∃ doc ws, doc ∈ documents ∧ candidate_windows doc chunk_size = Ok ws
                 ∧ chunk ∈ ws)).
  { induction documents as [|doc documents IH]; intros acc; simpl.
    - intros [= <-] chunk Hin. by left.
    - unfold candidate_windows.
      destruct (Py.range 0 (Z.of_nat (length doc)) chunk_size)
        as [idxs|e] eqn:Hr; simpl; [|done].
      intros Hrest chunk Hin.
      destruct (IH _ Hrest chunk Hin) as [Hacc|(Hk & d & ws & Hd & Hw & Hc)].
      + rewrite chunk_loop_filter in Hacc.
        apply elem_of_app in Hacc as [Hacc|Hnew]; [by left|right].
        apply list_elem_of_filter in Hnew as [Hk Hw].
        split; [done|]. exists doc. eexists.
        rewrite Hr. simpl. split_and!; [left|reflexivity|done].
      + right. split; [done|]. exists d, ws. split_and!; [by right|done|done]. }
  intros Hout chunk Hin.
  destruct (Hgen [] Hout chunk Hin) as [Hnil|H]; [|done].
  by apply elem_of_nil in Hnil.
Qed.

Lemma chunk_documents_total (documents : list str) (chunk_size : Z) :
  chunk_size ≠ 0%Z → ∃ out, chunk_documents documents chunk_size = Ok out.
Proof.
  intros Hne. unfold chunk_documents.
  set (body := fun (chunks : list str) (doc : str) => _).
  generalize (@nil str). subst body.
  induction documents as [|doc documents IH]; intros acc; simpl; [by eexists|].
  rewrite range_ok by done. simpl. apply IH.
Qed.

Lemma chunk_documents_eq (documents : list str) (chunk_size : Z) :
  chunk_size ≠ 0%Z →
  chunk_documents documents chunk_size
  = Ok (concat (map (kept_windows chunk_size) documents)).
Proof.
  intros Hne. unfold chunk_documents.
  set (body := fun (chunks : list str) (doc : str) => _).
  assert (Hgen : ∀ acc,
    for_each body documents acc
    = Ok (acc ++ concat (map (kept_windows chunk_size) documents))).
  { subst body.
    induction documents as [|doc documents IH]; intros acc; simpl.
    - by rewrite app_nil_r.
    - rewrite range_ok by done. simpl.
      etrans; [apply IH|]. rewrite chunk_loop_filter.
      by rewrite <- app_assoc. }
  apply (Hgen []).
Qed.

(** The candidate windows of a document make it up, one after the
    other. *)
Lemma candidate_windows_cover (doc : str) (chunk_size : Z) :
  (0 < chunk_size)%Z →
  ∃ ws, candidate_windows doc chunk_size = Ok ws
        ∧ concat ws = doc
        ∧ ∀ k w, ws !! k = Some w →
            w = take (Z.to_nat chunk_size) (drop (k * Z.to_nat chunk_size) doc)
            ∧ length (concat (take k ws)) = k * Z.to_nat chunk_size.
Proof.
  intros Hpos. unfold candidate_windows.
  rewrite range_ok by lia. simpl.
  set (c := Z.to_nat chunk_size).
  assert (Hc : chunk_size = Z.of_nat c) by lia.
  assert (Hc0 : 0 < c) by lia.
  rewrite Z.sub_0_r, Z.abs_eq, Nat2Z.id by lia.
  rewrite Hc. clearbody c. clear Hc Hpos chunk_size.
  eexists. split; [reflexivity|].
  split; [exact (windows_concat_from doc c (length doc) 0 Hc0 ltac:(lia))|].
  set (idxs := Py.range_loop _ _ _ _).
  assert (Hidx : ∀ k x, idxs !! k = Some x →
            x = Z.of_nat (k * c) ∧ k * c < length doc).
  { intros k x Hk. apply range_loop_lookup in Hk; [|lia]. lia. }
  clearbody idxs.
  assert (Hwin : ∀ k w, map (fun j => Py.slice doc j (j + Z.of_nat c)%Z) idxs
                        !! k = Some w →
            w = take c (drop (k * c) doc) ∧ k * c < length doc).
  { intros k w Hk. rewrite list_lookup_fmap in Hk.
    destruct (idxs !! k) as [x|] eqn:Hx; [|done].
    injection Hk as <-. apply Hidx in Hx as [-> Hlt].
    by rewrite slice_window. }
  intros k. induction k as [|k IH]; intros w Hk.
  - split; [by apply Hwin in Hk as [-> _]|done].
  - split; [by apply Hwin in Hk as [-> _]|].
    assert (Hlt : S k * c < length doc) by (by apply Hwin in Hk as [_ ?]).
    destruct (lookup_lt_is_Some_2
                (map (fun j => Py.slice doc j (j + Z.of_nat c)%Z) idxs) k)
      as [w' Hw'].
    { apply lookup_lt_Some in Hk. lia. }
    rewrite (take_S_r _ _ _ Hw'), concat_app, length_app.
    destruct (IH _ Hw') as [_ ->]. simpl. rewrite app_nil_r.
    apply Hwin in Hw' as [-> _].
    rewrite length_take, length_drop. lia.
Qed.

(** The chunks [chunk_documents] takes from a document are its candidate
    windows that pass the length filter. *)
Lemma kept_windows_candidates (doc : str) (chunk_size : Z) ws :
  candidate_windows doc chunk_size = Ok ws →
  kept_windows chunk_size doc
  = filter (fun w => 50 < length (Py.strip w)) ws.
Proof.
  unfold candidate_windows, Py.range, kept_windows.
  destruct (chunk_size =? 0)%Z; [done|]. simpl. intros [= <-].
  apply list_filter_iff. intros w. unfold kept. apply Nat.ltb_lt.
Qed.

(** C7.  For a chunk size [C > 0] the candidate windows of a document are
    computed without error, their concatenation in order is the document,
    and window [k] is the text from offset [k * C], which is exactly
    where the windows before it end: the windows neither overlap nor
    leave a gap.  They are the windows the chunker goes through: in any
    list of documents, what [chunk_documents] returns for the document
    is these windows, in order, less the ones the length filter
    discards. *)
Theorem candidate_windows_partition (doc : str) (chunk_size : Z) :
  (0 < chunk_size)%Z →
  ∃ ws, candidate_windows doc chunk_size = Ok ws
        ∧ concat ws = doc
        ∧ (∀ k w, ws !! k = Some w →
             w = take (Z.to_nat chunk_size) (drop (k * Z.to_nat chunk_size) doc)
             ∧ length (concat (take k ws)) = k * Z.to_nat chunk_size)
        ∧ ∀ before after,
            ∃ out1 out2,
              chunk_documents before chunk_size = Ok out1
              ∧ chunk_documents after chunk_size = Ok out2
              ∧ chunk_documents (before ++ doc :: after) chunk_size
                = Ok (out1
                      ++ filter (fun w => 50 < length (Py.strip w)) ws
                      ++ out2).
Proof.
  intros Hpos.
  destruct (candidate_windows_cover doc chunk_size Hpos)
    as (ws & Hws & Hcat & Hoff).
  exists ws. split_and!; [done|done|done|].
  intros before after. rewrite !chunk_documents_eq by lia.
  eexists _, _. split_and!; [reflexivity|reflexivity|].
  rewrite map_app, concat_app. cbn [map concat].
  by rewrite (kept_windows_candidates doc chunk_size ws Hws).
Qed.

Lemma candidate_windows_partition_witness :
  ∃ ws, candidate_windows fox 10 = Ok ws
        ∧ concat ws = fox
        ∧ (∀ k w, ws !! k = Some w →
             w = take (Z.to_nat 10) (drop (k * Z.to_nat 10) fox)
             ∧ length (concat (take k ws)) = k * Z.to_nat 10)
        ∧ ∀ before after,
            ∃ out1 out2,
              chunk_documents before 10 = Ok out1
              ∧ chunk_documents after 10 = Ok out2
              ∧ chunk_documents (before ++ fox :: after) 10
                = Ok (out1
                      ++ filter (fun w => 50 < length (Py.strip w)) ws
                      ++ out2).
Proof. apply (candidate_windows_partition fox 10). lia. Defined.

(** A document of two windows of which the length filter keeps the
    first: the chunker goes through both and returns that one. *)
Example chunk_documents_two_windows :
  candidate_windows (padded ++ fox) 59 = Ok [padded; fox]
  ∧ chunk_documents [padded ++ fox] 59 = Ok [padded].
Proof. by vm_compute. Qed.

(** C8.  Every chunk [chunk_documents] returns has more than 50 characters
    once stripped, and it is a candidate window of one of the documents
    as it stands, blanks included. *)
Theorem chunk_documents_kept (documents : list str) (chunk_size : Z) out :
  chunk_documents documents chunk_size = Ok out →
  Forall (fun chunk =>
            50 < length (Py.strip chunk)
            ∧ ∃ doc ws, doc ∈ documents
                        ∧ candidate_windows doc chunk_size = Ok ws
                        ∧ chunk ∈ ws)
         out.
Proof.
  intros Hout. apply Forall_forall. intros chunk Hin.
  destruct (chunk_documents_windows _ _ _ Hout chunk Hin) as [Hk Hw].
  split; [|done]. unfold kept in Hk. by apply Nat.ltb_lt in Hk.
Qed.

Lemma chunk_documents_kept_witness :
  Forall (fun chunk =>
            50 < length (Py.strip chunk)
            ∧ ∃ doc ws, doc ∈ [padded]
                        ∧ candidate_windows doc 1000 = Ok ws
                        ∧ chunk ∈ ws)
         [padded].
Proof. apply (chunk_documents_kept [padded] 1000 [padded]). reflexivity. Defined.

(** The window that is kept still carries the blanks that the filter
    stripped to measure it. *)
Example chunk_documents_padded :
  chunk_documents [padded] 1000 = Ok [padded]
  ∧ length padded = 59 ∧ length (Py.strip padded) = 54.
Proof. by vm_compute. Qed.

(** C3, as the code has it.  The document has 43 characters; its only
    candidate window is the whole document, and the length filter
    discards it, so chunking it yields no chunk. *)
Theorem chunk_fox_dropped :
  length fox = 43
  ∧ candidate_windows fox 1000 = Ok [fox]
  ∧ length (Py.strip fox) = 43
  ∧ chunk_documents [fox] 1000 = Ok [].
Proof. by vm_compute. Qed.

(** C3, as the claim states it, fails: the result is not the one chunk
    equal to the document. *)
Lemma chunk_fox_not_one_chunk : chunk_documents [fox] 1000 ≠ Ok [fox].
Proof. by vm_compute. Qed.

(** ** The sort *)

Section Sort.
Context {A : Type} (key : A → Q).

Lemma insert_desc_Permutation x l : Py.insert_desc key x l ≡ₚ x :: l.
Proof.
  induction l as [|y l IH]; simpl; [done|].
  destruct (Qle_bool (key y) (key x)); [done|].
  by rewrite IH, Permutation_swap.
Qed.

Lemma sort_desc_Permutation l : Py.sort_desc key l ≡ₚ l.
Proof.
  induction l as [|x l IH]; simpl; [done|].
  by rewrite insert_desc_Permutation, IH.
Qed.

Lemma insert_desc_sorted x l :
  StronglySorted (key_ge key) l →
  StronglySorted (key_ge key) (Py.insert_desc key x l).
Proof.
  induction 1 as [|y l Hl IH Hy]; simpl.
  - repeat constructor.
  - destruct (Qle_bool (key y) (key x)) eqn:E.
    + apply Qle_bool_iff in E.
      constructor; [by constructor|].
      constructor; [done|].
      eapply Forall_impl; [exact Hy|].
      intros z Hz. unfold key_ge in *. by apply Qle_trans with (key y).
    + assert (Hlt : (key x < key y)%Q).
      { apply Qnot_le_lt. intros H. apply Qle_bool_iff in H. congruence. }
      constructor; [done|].
      rewrite insert_desc_Permutation.
      constructor; [|done]. by apply Qlt_le_weak.
Qed.

Lemma sort_desc_sorted l : StronglySorted (key_ge key) (Py.sort_desc key l).
Proof.
  induction l as [|x l IH]; simpl; [constructor|].
  by apply insert_desc_sorted.
Qed.

(** Stability: the elements of one key value stay in their order. *)
Lemma insert_desc_stable s x l :
  filter (fun y => key y == s)%Q (Py.insert_desc key x l)
  = filter (fun y => key y == s)%Q (x :: l).
Proof.
  induction l as [|y l IH]; simpl; [done|].
  destruct (Qle_bool (key y) (key x)) eqn:E; [done|].
  assert (Hlt : (key x < key y)%Q).
  { apply Qnot_le_lt. intros H. apply Qle_bool_iff in H. congruence. }
  rewrite (filter_cons _ y), IH, !filter_cons.
  destruct (decide (key x == s)%Q) as [Hx|Hx];
    destruct (decide (key y == s)%Q) as [Hy|Hy]; try done.
  rewrite Hx, Hy in Hlt. by apply Qlt_irrefl in Hlt.
Qed.

Lemma sort_desc_stable s l :
  filter (fun y => key y == s)%Q (Py.sort_desc key l)
  = filter (fun y => key y == s)%Q l.
Proof.
  induction l as [|x l IH]; simpl; [done|].
  by rewrite insert_desc_stable, !filter_cons, IH.
Qed.

End Sort.

Lemma slice_from_start {A} (l : list A) (m : Z) :
  Py.slice l 0 m = take (Py.clamp (length l) m) l.
Proof.
  unfold Py.slice. replace (Py.clamp (length l) 0) with 0.
  - by rewrite Nat.sub_0_r.
  - unfold Py.clamp. simpl. lia.
Qed.

Lemma filter_take_prefix {A} (P : A → Prop) `{!∀ x, Decision (P x)} n (l : list A) :
  filter P (take n l) `prefix_of` filter P l.
Proof.
  exists (filter P (drop n l)). by rewrite <- filter_app, take_drop.
Qed.

(** ** The search *)

Lemma overlap_le_query (query chunk : str) :
  overlap query chunk ≤ size (word_set query).
Proof. apply subseteq_size, intersection_subseteq_l. Qed.

Lemma div_ok (a b : nat) :
  b ≠ 0 → Py.div a b = Ok (Z.of_nat a # Pos.of_nat b).
Proof. intros Hb. unfold Py.div. by destruct (Nat.eqb_spec b 0). Qed.

(** The scoring loop never divides by zero, and appends the scored chunks
    in input order. *)
Lemma search_loop (query : str) (chunks : list str) (acc : list (str * Q)) :
  for_each
    (fun results chunk =>
       let chunk_words := word_set chunk in
       let overlap := size (word_set query ∩ chunk_words) in
       if 0 <? overlap
       then score ← Py.div overlap (size (word_set query));
            Ok (results ++ [(chunk, score)])
       else Ok results)
    chunks acc
  = Ok (acc ++ scored query chunks).
Proof.
  revert acc. unfold scored.
  induction chunks as [|chunk chunks IH]; intros acc; simpl.
  - by rewrite app_nil_r.
  - rewrite filter_cons. fold (overlap query chunk).
    destruct (Nat.ltb_spec 0 (overlap query chunk)) as [Hpos|Hzero].
    + rewrite decide_True by done.
      rewrite div_ok.
      2:{ pose proof (overlap_le_query query chunk). lia. }
      simpl. etrans; [apply IH|]. by rewrite <- app_assoc.
    + rewrite decide_False by lia. apply IH.
Qed.

Lemma simple_search_eq (query : str) (chunks : list str) (max_results : Z) :
  simple_search query chunks max_results
  = Ok (Py.slice (Py.sort_desc snd (scored query chunks)) 0 max_results).
Proof.
  pose proof (search_loop query chunks []) as Hloop.
  unfold simple_search. cbv zeta in *. by rewrite Hloop.
Qed.

Lemma Zpos_of_nat (n : nat) : n ≠ 0 → Zpos (Pos.of_nat n) = Z.of_nat n.
Proof. intros Hn. by rewrite <- positive_nat_Z, Nat2Pos.id. Qed.

Lemma scored_chunks (query : str) (chunks : list str) s :
  map fst (filter (fun r : str * Q => r.2 == s)%Q (scored query chunks))
  = filter (fun chunk =>
              0 < overlap query chunk
              ∧ (Z.of_nat (overlap query chunk)
                 # Pos.of_nat (size (word_set query)) == s)%Q)
           chunks.
Proof.
  unfold scored. induction chunks as [|chunk chunks IH]; simpl; [done|].
  rewrite !(filter_cons _ chunk).
  destruct (decide (0 < overlap query chunk)) as [Hpos|Hzero].
  - simpl. rewrite filter_cons. simpl.
    destruct (decide (_ == s)%Q) as [Hs|Hs].
    + rewrite decide_True by done. simpl. by rewrite IH.
    + rewrite decide_False by (by intros [_ ?]). done.
  - rewrite decide_False by (by intros [? _]). done.
Qed.

Lemma scored_nil (query : str) (chunks : list str) :
  word_set query = ∅ → scored query chunks = [].
Proof.
  intros Hq. unfold scored.
  induction chunks as [|chunk chunks IH]; simpl; [done|].
  rewrite filter_cons, decide_False; [done|].
  unfold overlap. rewrite Hq, intersection_empty_l_L, size_empty. lia.
Qed.

(** A query made of whitespace only has no words. *)
Lemma lower_char_space (c : ascii) :
  Py.is_space c = true → Py.lower_char c = c.
Proof.
  destruct c as [[] [] [] [] [] [] [] []]; vm_compute; congruence.
Qed.

Lemma blank_query_no_words (query : str) :
  Forall (fun c => Py.is_space c = true) query → word_set query = ∅.
Proof.
  intros Hq. unfold word_set, Py.split_ws.
  replace (Py.split_ws_from [] (Py.lower query)) with (@nil str); [done|].
  induction Hq as [|c query Hc _ IH]; simpl; [done|].
  by rewrite (lower_char_space c Hc), Hc.
Qed.

(** C1.  The search returns, and every pair [(chunk, score)] it returns has
    a chunk of the input, a score equal to the number of distinct query
    words found in the chunk divided by the number of distinct query
    words, a score above zero, and an overlap above zero: no chunk
    without a common word is returned. *)
Theorem simple_search_scores (query : str) (chunks : list str) (max_results : Z) :
  ∃ out, simple_search query chunks max_results = Ok out
    ∧ Forall (fun r : str * Q =>
                r.1 ∈ chunks
                ∧ (r.2 == inject_Z (Z.of_nat (size (word_set query ∩ word_set r.1)))
                          / inject_Z (Z.of_nat (size (word_set query))))%Q
                ∧ (0 < r.2)%Q
                ∧ 0 < size (word_set query ∩ word_set r.1))
             out.
Proof.
  eexists. split; [apply simple_search_eq|].
  rewrite slice_from_start. apply Forall_take.
  rewrite sort_desc_Permutation.
  unfold scored. apply Forall_fmap, Forall_forall.
  intros chunk [Hpos Hin]%list_elem_of_filter. simpl.
  assert (Hq : size (word_set query) ≠ 0).
  { pose proof (overlap_le_query query chunk). lia. }
  split_and!; [done| | |done].
  - rewrite Qmake_Qdiv, Zpos_of_nat by done. reflexivity.
  - unfold Qlt. simpl. lia.
Qed.

(** C4.  The results are in non-increasing order of score, and for every
    score value the returned chunks of that score are, in the order they
    are returned, the first of the input chunks of that score: chunks of
    equal score keep the relative order of the input list. *)
Theorem simple_search_sorted_stable
    (query : str) (chunks : list str) (max_results : Z) :
  ∃ out, simple_search query chunks max_results = Ok out
    ∧ StronglySorted (fun a b : str * Q => (b.2 <= a.2)%Q) out
    ∧ ∀ s : Q,
        map fst (filter (fun r : str * Q => r.2 == s)%Q out)
        `prefix_of`
        filter (fun chunk =>
                  0 < overlap query chunk
                  ∧ (Z.of_nat (overlap query chunk)
                     # Pos.of_nat (size (word_set query)) == s)%Q)
               chunks.
Proof.
  eexists. split; [apply simple_search_eq|].
  rewrite slice_from_start.
  set (k := Py.clamp _ _). clearbody k.
  split.
  - apply StronglySorted_app_1_l with (drop k (Py.sort_desc snd (scored query chunks))).
    rewrite take_drop. apply (sort_desc_sorted snd).
  - intros s.
    rewrite <- scored_chunks, <- (sort_desc_stable snd s (scored query chunks)).
    destruct (filter_take_prefix (fun r : str * Q => r.2 == s)%Q k
                (Py.sort_desc snd (scored query chunks))) as [rest ->].
    rewrite map_app. by apply prefix_app_r.
Qed.

(** The two search scenarios: both query words found gives the score 1,
    and a chunk without a query word is left out. *)
Example search_brown_fox :
  simple_search $"brown fox" [$"The quick brown fox jumps"] 4
  = Ok [($"The quick brown fox jumps", 2 # 2)].
Proof. by vm_compute. Qed.

Example search_elephant :
  simple_search $"elephant" [$"The quick brown fox"] 4 = Ok [].
Proof. by vm_compute. Qed.

(** C5, as the code has it.  For [max_results >= 0] the search returns
    [min(max_results, n)] pairs, [n] being the number of input chunks that
    share a word with the query. *)
Theorem simple_search_count
    (query : str) (chunks : list str) (max_results : Z) :
  (0 ≤ max_results)%Z →
  ∃ out, simple_search query chunks max_results = Ok out
    ∧ Z.of_nat (length out)
      = Z.min max_results
          (Z.of_nat (length (filter
             (fun chunk => 0 < size (word_set query ∩ word_set chunk))
             chunks))).
Proof.
  intros Hm. eexists. split; [apply simple_search_eq|].
  rewrite slice_from_start, length_take.
  rewrite (Permutation_length (sort_desc_Permutation snd _)).
  unfold scored. rewrite length_map. unfold overlap.
  unfold Py.clamp. destruct (Z.ltb_spec max_results 0); lia.
Qed.

Lemma simple_search_count_witness :
  ∃ out, simple_search $"brown fox" [fox; padded; $"a fox"] 1 = Ok out
    ∧ Z.of_nat (length out)
      = Z.min 1
          (Z.of_nat (length (filter
             (fun chunk => 0 < size (word_set $"brown fox" ∩ word_set chunk))
             [fox; padded; $"a fox"]))).
Proof. apply (simple_search_count $"brown fox" [fox; padded; $"a fox"] 1). lia. Defined.

(** C5, as the claim states it, fails for a negative [max_results]: the
    slice then drops results from the end, and the count is not the
    minimum, which would be negative. *)
Lemma simple_search_count_negative :
  ∃ out, simple_search $"fox" [$"a fox"; $"the fox"] (-1) = Ok out
    ∧ Z.of_nat (length out)
      ≠ Z.min (-1)
          (Z.of_nat (length (filter
             (fun chunk => 0 < size (word_set $"fox" ∩ word_set chunk))
             [$"a fox"; $"the fox"]))).
Proof. eexists. split; [by vm_compute|]. simpl. lia. Qed.

(** C6.  When the query has no words, the division by the number of
    query words would raise, and the search does not reach it: it returns
    the empty list for every chunk list. *)
Theorem simple_search_empty_query
    (query : str) (chunks : list str) (max_results : Z) :
  word_set query = ∅ →
  (∀ overlap, Py.div overlap (size (word_set query)) = Raise ZeroDivisionError)
  ∧ simple_search query chunks max_results = Ok [].
Proof.
  intros Hq. split.
  - intros o. by rewrite Hq, size_empty.
  - rewrite simple_search_eq, scored_nil by done. simpl.
    by rewrite slice_from_start, take_nil.
Qed.

Lemma simple_search_empty_query_witness :
  (∀ overlap, Py.div overlap (size (word_set $"   ")) = Raise ZeroDivisionError)
  ∧ simple_search $"   " [fox; padded] 4 = Ok [].
Proof. apply (simple_search_empty_query $"   " [fox; padded] 4). reflexivity. Defined.

(** ** Stripping *)

Lemma lstrip_blank_app (pre s : str) :
  blank pre → Py.lstrip (pre ++ s) = Py.lstrip s.
Proof. induction 1 as [|c pre Hc _ IH]; simpl; [done|]. by rewrite Hc. Qed.

Lemma lstrip_cons (a : ascii) (s : str) :
  Py.is_space a = false → Py.lstrip (a :: s) = a :: s.
Proof. intros Ha. simpl. by rewrite Ha. Qed.

(** [lstrip] removes a blank prefix, and what is left does not start
    with whitespace. *)
Lemma lstrip_split (s : str) :
  ∃ pre, blank pre ∧ s = pre ++ Py.lstrip s
         ∧ (Py.lstrip s = [] ∨ ∃ a s', Py.lstrip s = a :: s' ∧ Py.is_space a = false).
Proof.
  induction s as [|c s (pre & Hpre & Hs & Hhd)]; simpl.
  - exists []. split_and!; [constructor|done|by left].
  - destruct (Py.is_space c) eqn:Hc.
    + exists (c :: pre).
      split_and!; [by constructor|by rewrite <- app_comm_cons, <- Hs|done].
    + exists []. split_and!; [constructor|done|]. right. by exists c, s.
Qed.

Lemma blank_rev (s : str) : blank s → blank (rev s).
Proof.
  unfold blank. rewrite !Forall_forall. intros Hs c Hc.
  apply Hs. by apply list_elem_of_In, in_rev, list_elem_of_In.
Qed.

Lemma rstrip_app_blank (s post : str) :
  blank post → Py.rstrip (s ++ post) = Py.rstrip s.
Proof.
  intros Hpost. unfold Py.rstrip.
  rewrite rev_app_distr, lstrip_blank_app; [done|]. by apply blank_rev.
Qed.

Lemma rstrip_snoc (s : str) (b : ascii) :
  Py.is_space b = false → Py.rstrip (s ++ [b]) = s ++ [b].
Proof.
  intros Hb. unfold Py.rstrip.
  rewrite rev_app_distr. simpl. rewrite Hb. simpl. by rewrite rev_involutive.
Qed.

(** The strip of a trimmed text between two blank texts is that text. *)
Lemma strip_trimmed (pre mid post : str) :
  blank pre → blank post → trimmed mid →
  Py.strip (pre ++ mid ++ post) = mid.
Proof.
  intros Hpre Hpost [(a & m1 & Ha & Hsa) (m2 & b & Hb & Hsb)].
  unfold Py.strip.
  rewrite !app_assoc, rstrip_app_blank by done.
  rewrite Hb, app_assoc, rstrip_snoc by done.
  rewrite <- app_assoc, <- Hb, lstrip_blank_app by done.
  rewrite Ha. by apply lstrip_cons.
Qed.

Lemma strip_trimmed_id (s : str) : trimmed s → Py.strip s = s.
Proof.
  intros Hs.
  assert (Hnil : blank []) by constructor.
  pose proof (strip_trimmed [] s [] Hnil Hnil Hs) as H.
  simpl in H. by rewrite app_nil_r in H.
Qed.

Lemma lstrip_nil_blank (s : str) : Py.lstrip s = [] → blank s.
Proof.
  induction s as [|c s IH]; simpl; [constructor|].
  destruct (Py.is_space c) eqn:Hc; [|done].
  intros Hs. constructor; [done|by apply IH].
Qed.

Lemma strip_blank (s : str) : blank s → Py.strip s = [].
Proof.
  intros Hs. unfold Py.strip.
  replace s with ([] ++ s) by done.
  rewrite rstrip_app_blank by done.
  reflexivity.
Qed.

(** A text whose strip is not empty is a trimmed text, its strip, between
    two blank texts. *)
Lemma strip_split (s : str) :
  Py.strip s ≠ [] →
  ∃ pre post, blank pre ∧ blank post ∧ trimmed (Py.strip s)
              ∧ s = pre ++ Py.strip s ++ post.
Proof.
  intros Hne.
  destruct (lstrip_split s) as (pre & Hpre & Hs & [Hnil|(a & t & Ht & Ha)]).
  { destruct Hne. apply strip_blank. by apply lstrip_nil_blank. }
  destruct (lstrip_split (rev (a :: t)))
    as (post' & Hpost' & Hr & [Hnil|(b & u & Hu & Hb)]).
  { apply lstrip_nil_blank in Hnil.
    assert (Hin : a ∈ rev (a :: t)).
    { apply list_elem_of_In, in_rev. rewrite rev_involutive. by left. }
    unfold blank in Hnil. rewrite Forall_forall in Hnil.
    apply Hnil in Hin. congruence. }
  assert (Hat : a :: t = (rev u ++ [b]) ++ rev post').
  { rewrite <- (rev_involutive (a :: t)), Hr, Hu, rev_app_distr. done. }
  assert (Hblank : blank (rev post')) by (by apply blank_rev).
  assert (Htrim : trimmed (rev u ++ [b])).
  { split; [|by exists (rev u), b].
    destruct (rev u) as [|c w] eqn:Hw; simpl in *.
    - by exists b, [].
    - injection Hat as Hac _. exists c, (w ++ [b]). by rewrite <- Hac. }
  assert (Hstrip : Py.strip s = rev u ++ [b]).
  { rewrite Hs, Ht, Hat. by apply strip_trimmed. }
  exists pre, (rev post'). rewrite Hstrip.
  split_and!; [done|done|done|]. by rewrite Hs, Ht, Hat.
Qed.

Lemma trimmed_ends (s : str) :
  trimmed s →
  s ≠ [] ∧ ∃ a b, head s = Some a ∧ Py.is_space a = false
                  ∧ last s = Some b ∧ Py.is_space b = false.
Proof.
  intros [(a & s1 & Ha & Hsa) (s2 & b & Hb & Hsb)].
  split; [by rewrite Ha|]. exists a, b.
  split_and!; [by rewrite Ha|done|by rewrite Hb, last_snoc|done].
Qed.

(** ** The reader *)

Lemma load_loop (parts : list str) (acc : list str) :
  fold_left
    (fun chunks part =>
       let lines := Py.split [Py.nl] part in
       let chunk_content := Py.strip (Py.join [Py.nl] (drop 1 lines)) in
       let chunk_content :=
         Py.strip (Py.replace separator [] chunk_content) in
       match chunk_content with
       | [] => chunks
       | _ => chunks ++ [chunk_content]
       end)
    parts acc
  = acc ++ filter (fun s => s ≠ []) (map parse_part parts).
Proof.
  revert acc. induction parts as [|part parts IH]; intros acc; simpl.
  - by rewrite app_nil_r.
  - rewrite IH, filter_cons. fold (parse_part part).
    destruct (parse_part part) as [|c s] eqn:E.
    + by rewrite decide_False by (by intros []).
    + rewrite decide_True by done. by rewrite <- app_assoc.
Qed.

Lemma load_eq (raw : str) :
  load_processed_documents (Some raw)
  = filter (fun s => s ≠ [])
      (map parse_part (drop 1 (Py.split marker (Py.universal_newlines raw)))).
Proof. unfold load_processed_documents. cbv zeta. by rewrite load_loop. Qed.

(** C10.  Every chunk the reader returns, whatever the file holds, is
    not empty, starts with a character that is not whitespace and ends
    with one, and so is left unchanged by a further strip. *)
Theorem load_chunks_trimmed (file : option str) :
  Forall (fun chunk =>
            chunk ≠ []
            ∧ (∃ a b, head chunk = Some a ∧ Py.is_space a = false
                      ∧ last chunk = Some b ∧ Py.is_space b = false)
            ∧ Py.strip chunk = chunk)
         (load_processed_documents file).
Proof.
  destruct file as [raw|]; [|constructor].
  rewrite load_eq. apply Forall_forall.
  intros chunk [Hne Hin]%list_elem_of_filter.
  apply list_elem_of_fmap in Hin as (part & -> & _).
  unfold parse_part in *.
  destruct (strip_split _ Hne) as (pre & post & _ & _ & Htrim & _).
  destruct (trimmed_ends _ Htrim) as [_ Hends].
  split_and!; [done|done|]. by apply strip_trimmed_id.
Qed.

(** ** The context formatter *)

Lemma enumerate_lookup {A} (l : list A) (start i : nat) (x : A) :
  l !! i = Some x → Py.enumerate start l !! i = Some (start + i, x).
Proof.
  unfold Py.enumerate. revert start i.
  induction l as [|y l IH]; intros start i; [done|].
  destruct i as [|i]; simpl.
  - intros [= ->]. by rewrite Nat.add_0_r.
  - intros Hi. rewrite (IH (S start) i Hi). f_equal. f_equal. lia.
Qed.

Lemma enumerate_length {A} (l : list A) (start : nat) :
  length (Py.enumerate start l) = length l.
Proof.
  unfold Py.enumerate. rewrite length_zip_with, length_seq. lia.
Qed.

Section FormattingFacts.
Variable format_2f : Q → str.

Lemma format_loop (l : list (nat * (str * Q))) (context : str) :
  fold_left
    (fun context '(i, (chunk, score)) =>
       let display_chunk :=
         if 500 <? length chunk
         then Py.slice chunk 0 500 ++ $"..." else chunk in
       context ++ ($"Document " ++ Py.str_of_nat i
                   ++ $" (relevance: " ++ format_2f score ++ $"):"
                   ++ [Py.nl] ++ display_chunk ++ [Py.nl; Py.nl]))
    l context
  = context ++ concat (map (context_entry format_2f) l).
Proof.
  revert context. induction l as [|[i [chunk score]] l IH]; intros context.
  - simpl. by rewrite app_nil_r.
  - cbn [fold_left map concat]. rewrite IH. cbv zeta.
    rewrite <- app_assoc. reflexivity.
Qed.

(** C9.  [format_context] returns the fixed sentence for no results
    exactly when the result list is empty.  Otherwise it returns the
    opening line followed by one block per result, in order: block [i]
    (from 0) is a header with the rank [i + 1] and the formatted score,
    a newline, the chunk, cut to its first 500 characters and followed
    by [...] exactly when it has more than 500, and an empty line. *)
Theorem format_context_blocks (search_results : list (str * Q)) :
  (format_context format_2f search_results = no_results
   ↔ search_results = [])
  ∧ ∃ blocks : list str,
      (search_results ≠ [] →
       format_context format_2f search_results
       = $"Based on the following information from your documents:"
         ++ [Py.nl; Py.nl] ++ concat blocks)
      ∧ length blocks = length search_results
      ∧ ∀ i chunk score,
          search_results !! i = Some (chunk, score) →
          ∃ shown,
            blocks !! i
            = Some ($"Document " ++ Py.str_of_nat (i + 1)
                    ++ $" (relevance: " ++ format_2f score ++ $"):"
                    ++ [Py.nl] ++ shown ++ [Py.nl; Py.nl])
            ∧ (length chunk ≤ 500 → shown = chunk)
            ∧ (500 < length chunk → shown = take 500 chunk ++ $"...").
Proof.
  assert (Hform : ∀ r rs,
    format_context format_2f (r :: rs)
    = $"Based on the following information from your documents:"
      ++ [Py.nl; Py.nl]
      ++ concat (map (context_entry format_2f) (Py.enumerate 1 (r :: rs)))).
  { intros r rs. unfold format_context. cbv zeta.
    rewrite format_loop. by rewrite <- app_assoc. }
  split.
  - split; [|by intros ->].
    destruct search_results as [|r rs]; [done|].
    rewrite Hform. intros H. apply (f_equal head) in H. by vm_compute in H.
  - exists (map (context_entry format_2f) (Py.enumerate 1 search_results)).
    split_and!.
    + destruct search_results as [|r rs]; [done|]. intros _. apply Hform.
    + by rewrite length_map, enumerate_length.
    + intros i chunk score Hi.
      rewrite list_lookup_fmap, (enumerate_lookup _ 1 i _ Hi). simpl.
      rewrite (Nat.add_comm i 1). simpl.
      eexists. split; [reflexivity|].
      destruct (Nat.ltb_spec 500 (length chunk)); split; intros; try lia; try done.
      f_equal. exact (slice_prefix chunk 500).
Qed.

End FormattingFacts.

Lemma format_context_blocks_witness :
  (format_context (fun _ => $"0.50") [(fox, 1 # 2)] = no_results
   ↔ [(fox, 1 # 2)] = [])
  ∧ ∃ blocks : list str,
      ([(fox, 1 # 2)] ≠ [] →
       format_context (fun _ => $"0.50") [(fox, 1 # 2)]
       = $"Based on the following information from your documents:"
         ++ [Py.nl; Py.nl] ++ concat blocks)
      ∧ length blocks = length [(fox, 1 # 2)]
      ∧ ∀ i chunk score,
          [(fox, 1 # 2)] !! i = Some (chunk, score) →
          ∃ shown,
            blocks !! i
            = Some ($"Document " ++ Py.str_of_nat (i + 1)
                    ++ $" (relevance: " ++ (fun _ : Q => $"0.50") score ++ $"):"
                    ++ [Py.nl] ++ shown ++ [Py.nl; Py.nl])
            ∧ (length chunk ≤ 500 → shown = chunk)
            ∧ (500 < length chunk → shown = take 500 chunk ++ $"...").
Proof. exact (format_context_blocks (fun _ => $"0.50") [(fox, 1 # 2)]). Defined.

(** ** Searching for a separator *)

Lemma find_unfold (sep s : str) :
  Py.find sep s
  = if Py.starts_with sep s then Some 0
    else match s with
         | [] => None
         | _ :: s' => S <$> Py.find sep s'
         end.
Proof. by destruct s. Qed.

Lemma starts_with_app (sep s : str) : Py.starts_with sep (sep ++ s) = true.
Proof.
  induction sep as [|a sep IH]; simpl; [done|]. by rewrite decide_True.
Qed.

Lemma starts_with_inv (sep s : str) :
  Py.starts_with sep s = true → s = sep ++ drop (length sep) s.
Proof.
  revert s. induction sep as [|a sep IH]; intros [|b s]; simpl; try done.
  destruct (decide (a = b)) as [->|]; [|done].
  intros H. f_equal. by apply IH.
Qed.

(** A separator that does not hold the character [x] cannot reach across
    an [x] in the text. *)
Lemma starts_with_across (sep a b : str) (x : ascii) :
  x ∉ sep → Py.starts_with sep (a ++ x :: b) = Py.starts_with sep a.
Proof.
  revert sep. induction a as [|c a IH]; intros [|y sep] Hx; simpl; try done.
  - rewrite decide_False; [done|]. intros ->. apply Hx. by left.
  - destruct (decide (y = c)); [|done]. apply IH.
    intros Hin. apply Hx. by right.
Qed.

Lemma find_nil (sep : str) : sep ≠ [] → Py.find sep [] = None.
Proof. by destruct sep. Qed.

(** No occurrence up to an [x] the separator does not hold: the search
    goes on after it. *)
Lemma find_across (sep a b : str) (x : ascii) :
  sep ≠ [] → x ∉ sep → Py.find sep a = None →
  Py.find sep (a ++ x :: b) = (fun j => length a + 1 + j) <$> Py.find sep b.
Proof.
  intros Hsep Hx. induction a as [|c a IH]; intros Ha.
  - simpl app. rewrite find_unfold.
    pose proof (starts_with_across sep [] b x Hx) as Hst.
    simpl app in Hst. rewrite Hst.
    destruct sep; [done|]. simpl. by destruct (Py.find _ b).
  - rewrite find_unfold in Ha. simpl app. rewrite find_unfold.
    pose proof (starts_with_across sep (c :: a) b x Hx) as Hst.
    simpl app in Hst. rewrite Hst.
    destruct (Py.starts_with sep (c :: a)); [done|].
    destruct (Py.find sep a) eqn:Hfa; [done|].
    rewrite IH by done. by destruct (Py.find sep b).
Qed.

Lemma find_Some (sep s : str) (i : nat) :
  Py.find sep s = Some i →
  Py.starts_with sep (drop i s) = true ∧ i + length sep ≤ length s.
Proof.
  revert i. induction s as [|c s IH]; intros i; rewrite find_unfold.
  - destruct (Py.starts_with sep []) eqn:E; [|done].
    intros [= <-]. split; [done|]. by destruct sep.
  - destruct (Py.starts_with sep (c :: s)) eqn:E.
    + intros [= <-]. split; [done|].
      apply starts_with_inv in E. apply (f_equal length) in E.
      rewrite length_app in E. simpl in *. lia.
    + destruct (Py.find sep s) as [j|]; [|done].
      intros [= <-]. destruct (IH j eq_refl). simpl. split; [done|lia].
Qed.

Lemma find_None_drop (sep s : str) (k : nat) :
  Py.find sep s = None → Py.find sep (drop k s) = None.
Proof.
  revert s. induction k as [|k IH]; intros s; [done|].
  destruct s as [|c s]; [done|].
  rewrite find_unfold. destruct (Py.starts_with sep (c :: s)); [done|].
  destruct (Py.find sep s) eqn:E; [done|]. intros _. simpl. by apply IH.
Qed.

(** A separator with a character the text lacks does not occur in it. *)
Lemma find_None_char (sep s : str) (x : ascii) :
  x ∈ sep → x ∉ s → Py.find sep s = None.
Proof.
  intros Hsep. induction s as [|c s IH]; intros Hs; rewrite find_unfold.
  - destruct sep; [|done]. by apply elem_of_nil in Hsep.
  - destruct (Py.starts_with sep (c :: s)) eqn:E.
    + apply starts_with_inv in E. destruct Hs. rewrite E.
      apply elem_of_app. by left.
    + rewrite IH; [done|]. intros Hin. apply Hs. by right.
Qed.

(** A text free of [x] is found to end at the first [x]. *)
Lemma find_char (x : ascii) (a b : str) :
  x ∉ a → Py.find [x] (a ++ x :: b) = Some (length a).
Proof.
  induction a as [|c a IH]; intros Ha; simpl app; rewrite find_unfold; simpl.
  - by rewrite decide_True.
  - rewrite decide_False.
    + rewrite IH; [done|]. intros Hin. apply Ha. by right.
    + intros ->. apply Ha. by left.
Qed.

(** ** Splitting, joining and replacing *)

Lemma split_loop_enough (sep s : str) (fuel1 fuel2 : nat) :
  sep ≠ [] → length s < fuel1 → length s < fuel2 →
  Py.split_loop fuel1 sep s = Py.split_loop fuel2 sep s.
Proof.
  intros Hsep. revert fuel2 s.
  induction fuel1 as [|fuel1 IH]; intros [|fuel2] s H1 H2; try lia.
  simpl. destruct (Py.find sep s) as [i|] eqn:E; [|done].
  apply find_Some in E as [_ Hi].
  assert (0 < length sep) by (destruct sep; [done|simpl; lia]).
  f_equal. apply IH; rewrite length_drop; lia.
Qed.

Lemma split_unfold (sep s : str) :
  sep ≠ [] →
  Py.split sep s
  = match Py.find sep s with
    | None => [s]
    | Some i => take i s :: Py.split sep (drop (i + length sep) s)
    end.
Proof.
  intros Hsep. unfold Py.split at 1. simpl.
  destruct (Py.find sep s) as [i|] eqn:E; [|done].
  apply find_Some in E as [_ Hi].
  assert (0 < length sep) by (destruct sep; [done|simpl; lia]).
  f_equal. apply split_loop_enough; [done| |]; rewrite ?length_drop; lia.
Qed.

Lemma split_not_nil (sep s : str) : Py.split sep s ≠ [].
Proof. unfold Py.split. simpl. by destruct (Py.find sep s). Qed.

Lemma join_cons (sep p : str) (ps : list str) :
  ps ≠ [] → Py.join sep (p :: ps) = p ++ sep ++ Py.join sep ps.
Proof. by destruct ps. Qed.

(** Joining the parts of a split with the separator gives the text
    back. *)
Lemma join_split (sep s : str) :
  sep ≠ [] → Py.join sep (Py.split sep s) = s.
Proof.
  intros Hsep. revert s.
  assert (Hind : ∀ n s, length s < n → Py.join sep (Py.split sep s) = s).
  { induction n as [|n IH]; intros s Hn; [lia|].
    rewrite split_unfold by done.
    destruct (Py.find sep s) as [i|] eqn:E; [|done].
    apply find_Some in E as [Hst Hi].
    assert (0 < length sep) by (destruct sep; [done|simpl; lia]).
    rewrite join_cons by apply split_not_nil.
    rewrite IH by (rewrite length_drop; lia).
    apply starts_with_inv in Hst.
    rewrite <- drop_drop, <- Hst. apply take_drop. }
  intros s. apply (Hind (S (length s))). lia.
Qed.

Lemma skips_nil (sep : str) : skips sep [].
Proof. intros r. simpl. by destruct (Py.find sep r). Qed.

Lemma skips_line (sep a : str) (x : ascii) :
  sep ≠ [] → x ∉ sep → Py.find sep a = None → skips sep (a ++ [x]).
Proof.
  intros Hsep Hx Ha r. rewrite <- app_assoc. simpl app.
  rewrite find_across by done. rewrite length_app. simpl.
  by destruct (Py.find sep r).
Qed.

Lemma skips_app (sep u v : str) :
  skips sep u → skips sep v → skips sep (u ++ v).
Proof.
  intros Hu Hv r. rewrite <- app_assoc, Hu, Hv, length_app.
  destruct (Py.find sep r); simpl; [|done]. f_equal. lia.
Qed.

Lemma find_here (sep r : str) : Py.find sep (sep ++ r) = Some 0.
Proof. by rewrite find_unfold, starts_with_app. Qed.

Lemma split_skips (sep u r : str) :
  sep ≠ [] → skips sep u →
  Py.split sep (u ++ sep ++ r) = u :: Py.split sep r.
Proof.
  intros Hsep Hu. rewrite split_unfold, Hu, find_here by done. simpl.
  rewrite Nat.add_0_r, take_app_length. f_equal. f_equal.
  rewrite <- drop_drop, drop_app_length. apply drop_app_length.
Qed.

Lemma split_skips_end (sep u : str) :
  sep ≠ [] → skips sep u → Py.split sep u = [u].
Proof.
  intros Hsep Hu. rewrite split_unfold by done.
  rewrite <- (app_nil_r u) at 1. by rewrite Hu, find_nil.
Qed.

(** Dropping the first line of a text. *)
Lemma drop_first_line (h rest : str) :
  Py.nl ∉ h →
  Py.join [Py.nl] (drop 1 (Py.split [Py.nl] (h ++ Py.nl :: rest))) = rest.
Proof.
  intros Hh. rewrite split_unfold, find_char by done.
  assert (Hrest : drop (length h + length [Py.nl]) (h ++ Py.nl :: rest) = rest).
  { rewrite <- drop_drop, drop_app_length. done. }
  rewrite Hrest. change (drop 1 (?x :: ?l)) with l. by apply join_split.
Qed.

(** Removing the separator line that ends a text free of it. *)
Lemma replace_final_separator (x : str) :
  Py.find separator x = None →
  Py.replace separator [] (x ++ [Py.nl; Py.nl] ++ separator) = x ++ [Py.nl; Py.nl].
Proof.
  intros Hx. unfold Py.replace.
  assert (Hsep : separator ≠ []) by done.
  assert (Hnl : Py.nl ∉ separator) by compute_done.
  assert (Hsk : skips separator (x ++ [Py.nl; Py.nl])).
  { replace (x ++ [Py.nl; Py.nl]) with ((x ++ [Py.nl]) ++ ([] ++ [Py.nl]))
      by (by rewrite <- app_assoc).
    apply skips_app; by apply skips_line. }
  replace (x ++ [Py.nl; Py.nl] ++ separator)
    with ((x ++ [Py.nl; Py.nl]) ++ separator ++ [])
    by (by rewrite app_nil_r, <- app_assoc).
  rewrite split_skips by done.
  rewrite split_skips_end by (done || apply skips_nil).
  simpl. by rewrite app_nil_r.
Qed.

(** ** The writer *)

Lemma string_of_uint_digits (d : Decimal.uint) :
  Forall (fun c => c ∈ digits)
         (list_ascii_of_string (NilEmpty.string_of_uint d)).
Proof.
  induction d; simpl; constructor; first [done | by compute_done].
Qed.

Lemma str_of_nat_digits (n : nat) :
  Forall (fun c => c ∈ digits) (Py.str_of_nat n).
Proof.
  unfold Py.str_of_nat, NilZero.string_of_uint.
  destruct (Nat.to_uint n) eqn:E; try apply string_of_uint_digits.
  repeat constructor.
Qed.

Lemma str_of_nat_lacks (x : ascii) (n : nat) :
  x ∉ digits → x ∉ Py.str_of_nat n.
Proof.
  intros Hx Hin. pose proof (str_of_nat_digits n) as Hd.
  rewrite Forall_forall in Hd. by apply Hx, Hd.
Qed.

Lemma lacks_of (big l : str) (x : ascii) :
  Forall (fun c => c ∈ big) l → x ∉ big → x ∉ l.
Proof.
  intros Hl Hx Hin. rewrite Forall_forall in Hl. by apply Hx, Hl.
Qed.

(** The line after the marker is made of blanks, digits and [=]: it
    holds neither a newline nor a [C] nor a carriage return. *)
Lemma number_line_chars (n : nat) :
  Forall (fun c => c ∈ $" 0123456789=")
         ($" " ++ Py.str_of_nat n ++ $" ===").
Proof.
  rewrite !Forall_app. split_and!; [by compute_done| |by compute_done].
  eapply Forall_impl; [apply str_of_nat_digits|].
  intros c Hc. change ($" 0123456789=") with ($" " ++ digits ++ $"=").
  rewrite !elem_of_app. auto.
Qed.

Lemma number_line_lacks (x : ascii) (n : nat) :
  x ∉ $" 0123456789=" → x ∉ $" " ++ Py.str_of_nat n ++ $" ===".
Proof. apply lacks_of, number_line_chars. Qed.

Lemma enumerate_cons {A} (start : nat) (x : A) (l : list A) :
  Py.enumerate start (x :: l) = (start, x) :: Py.enumerate (S start) l.
Proof. done. Qed.

Lemma save_loop (chunks : list str) (start : nat) (f : str) :
  fold_left
    (fun f '(i, chunk) =>
       let f := f ++ $"=== CHUNK " ++ Py.str_of_nat (i + 1) ++ $" ===" ++ [Py.nl] in
       let f := f ++ chunk in
       f ++ ([Py.nl; Py.nl] ++ separator ++ [Py.nl; Py.nl]))
    (Py.enumerate start chunks) f
  = f ++ blocks start chunks.
Proof.
  revert start f. induction chunks as [|chunk chunks IH]; intros start f.
  - simpl. by rewrite app_nil_r.
  - rewrite enumerate_cons. cbn [fold_left blocks]. rewrite IH.
    unfold chunk_tail, marker. rewrite <- !app_assoc. reflexivity.
Qed.

Lemma save_eq (chunks : list str) :
  save_processed_documents chunks = blocks 0 chunks.
Proof. unfold save_processed_documents. by rewrite save_loop. Qed.

Lemma universal_newlines_id (s : str) :
  Py.cr ∉ s → Py.universal_newlines s = s.
Proof.
  induction s as [|c s IH]; intros Hs; [done|].
  apply not_elem_of_cons in Hs as [Hc Hs]. simpl.
  rewrite decide_False by done. by rewrite IH.
Qed.

Lemma blocks_lack_cr (chunks : list str) (start : nat) :
  Forall storable chunks → Py.cr ∉ blocks start chunks.
Proof.
  intros Hall. revert start.
  induction Hall as [|chunk chunks (_ & _ & Hcr & _) _ IH]; intros start;
    cbn [blocks].
  - apply not_elem_of_nil.
  - unfold chunk_tail. rewrite !not_elem_of_app.
    split_and!;
      first [ done | apply IH | by compute_done
            | apply str_of_nat_lacks; by compute_done ].
Qed.

(** ** The round trip *)

Lemma marker_not_nil : marker ≠ [].
Proof. done. Qed.

Lemma skips_lines (sep : str) (x : ascii) (ls : list str) :
  sep ≠ [] → x ∉ sep → Forall (fun a => Py.find sep a = None) ls →
  skips sep (concat (map (fun a => a ++ [x]) ls)).
Proof.
  intros Hsep Hx. induction 1 as [|a ls Ha _ IH]; simpl.
  - apply skips_nil.
  - apply skips_app; [by apply skips_line|done].
Qed.

Lemma chunk_tail_lines (n : nat) (chunk : str) :
  chunk_tail n chunk
  = concat (map (fun a => a ++ [Py.nl])
                [$" " ++ Py.str_of_nat n ++ $" ==="; chunk; []; separator; []]).
Proof.
  unfold chunk_tail. cbn [concat map]. rewrite <- !app_assoc. reflexivity.
Qed.

Lemma chunk_tail_skips (n : nat) (chunk : str) :
  storable chunk → skips marker (chunk_tail n chunk).
Proof.
  intros (Hm & _ & _ & _). rewrite chunk_tail_lines.
  apply skips_lines; [done|by compute_done|].
  repeat constructor; [|done].
  apply find_None_char with "C"%char; [by compute_done|].
  apply number_line_lacks. by compute_done.
Qed.

(** The parts the reader finds after the one before the first marker
    are what the writer put after each marker. *)
Lemma split_tail_blocks (chunks : list str) (n start : nat) (chunk : str) :
  storable chunk → Forall storable chunks →
  Py.split marker (chunk_tail n chunk ++ blocks start chunks)
  = chunk_tail n chunk :: tails start chunks.
Proof.
  intros Hc Hall. revert n start chunk Hc.
  induction Hall as [|chunk' chunks Hc' _ IH]; intros n start chunk Hc;
    cbn [blocks tails].
  - rewrite app_nil_r.
    apply split_skips_end; [apply marker_not_nil|by apply chunk_tail_skips].
  - rewrite split_skips;
      [|apply marker_not_nil|by apply chunk_tail_skips].
    f_equal. by apply IH.
Qed.

Lemma split_blocks (chunks : list str) (start : nat) :
  Forall storable chunks →
  drop 1 (Py.split marker (blocks start chunks)) = tails start chunks.
Proof.
  intros Hall. destruct Hall as [|chunk chunks Hc Hall]; cbn [blocks tails].
  - done.
  - pose proof (split_skips marker [] (chunk_tail (start + 1) chunk
                                       ++ blocks (S start) chunks)
                  marker_not_nil (skips_nil marker)) as Hsplit.
    rewrite app_nil_l in Hsplit. rewrite Hsplit.
    change (drop 1 (?x :: ?l)) with l. by apply split_tail_blocks.
Qed.

Lemma separator_trimmed (s : str) (a : ascii) :
  Py.is_space a = false → trimmed ((a :: s) ++ [Py.nl; Py.nl] ++ separator).
Proof.
  intros Ha. split.
  - by exists a, (s ++ [Py.nl; Py.nl] ++ separator).
  - exists ((a :: s) ++ [Py.nl; Py.nl] ++ replicate 49 "="%char), "="%char.
    split; [|done]. rewrite <- !app_assoc. reflexivity.
Qed.

(** From the part of a storable chunk the reader recovers the chunk,
    stripped. *)
Lemma parse_chunk_tail (n : nat) (chunk : str) :
  storable chunk → parse_part (chunk_tail n chunk) = Py.strip chunk.
Proof.
  intros (_ & Hsep & _ & Hne). unfold parse_part.
  change (chunk_tail n chunk)
    with (($" " ++ Py.str_of_nat n ++ $" ===")
          ++ Py.nl :: (chunk ++ [Py.nl; Py.nl] ++ separator ++ [Py.nl; Py.nl])).
  rewrite drop_first_line by (apply number_line_lacks; by compute_done).
  destruct (strip_split chunk Hne)
    as (pre & post & Hpre & Hpost & Htrim & Hchunk).
  set (mid := Py.strip chunk) in *.
  assert (Hfind : Py.find separator (mid ++ post) = None).
  { replace (mid ++ post) with (drop (length pre) chunk).
    - by apply find_None_drop.
    - rewrite Hchunk. apply drop_app_length. }
  destruct Htrim as [(a & m1 & Ha & Hsa) Hlast].
  assert (Hstrip1 :
    Py.strip (chunk ++ [Py.nl; Py.nl] ++ separator ++ [Py.nl; Py.nl])
    = (mid ++ post) ++ [Py.nl; Py.nl] ++ separator).
  { rewrite Hchunk at 1.
    replace ((pre ++ mid ++ post) ++ [Py.nl; Py.nl] ++ separator ++ [Py.nl; Py.nl])
      with (pre ++ ((mid ++ post) ++ [Py.nl; Py.nl] ++ separator) ++ [Py.nl; Py.nl])
      by (by rewrite <- !app_assoc).
    apply strip_trimmed; [done|by repeat constructor|].
    rewrite Ha. by apply (separator_trimmed (m1 ++ post) a). }
  rewrite Hstrip1, replace_final_separator by done.
  rewrite <- app_assoc.
  apply (strip_trimmed [] mid (post ++ [Py.nl; Py.nl])).
  - constructor.
  - apply Forall_app. split; [done|by repeat constructor].
  - split; [by exists a, m1|done].
Qed.

Lemma parse_tails (chunks : list str) (start : nat) :
  Forall storable chunks →
  filter (fun s => s ≠ []) (map parse_part (tails start chunks))
  = map Py.strip chunks.
Proof.
  intros Hall. revert start.
  induction Hall as [|chunk chunks Hc _ IH]; intros start; [done|].
  cbn [tails map]. rewrite filter_cons, parse_chunk_tail by done.
  rewrite decide_True by apply Hc. by rewrite IH.
Qed.

(** C2, as the code has it.  For chunks that hold neither the marker
    [=== CHUNK] nor a run of 50 [=] nor a carriage return and that are
    not blank, reading back the written file yields as many chunks, each
    the original with the whitespace at both its ends stripped. *)
Theorem save_load_roundtrip (chunks : list str) :
  Forall storable chunks →
  load_processed_documents (Some (save_processed_documents chunks))
  = map Py.strip chunks.
Proof.
  intros Hall.
  rewrite load_eq, save_eq.
  rewrite universal_newlines_id by (by apply blocks_lack_cr).
  rewrite split_blocks by done. by apply parse_tails.
Qed.

Lemma save_load_roundtrip_witness :
  load_processed_documents (Some (save_processed_documents [padded; fox]))
  = map Py.strip [padded; fox].
Proof.
  apply (save_load_roundtrip [padded; fox]). by compute_done.
Defined.

(** Each condition on the chunks is needed: a blank chunk is dropped, a
    run of 50 [=] is deleted, a carriage return comes back as a newline;
    and the whitespace that is stripped is that of both ends. *)
Example save_load_blank_chunk :
  load_processed_documents (Some (save_processed_documents [$"  "; $"x"]))
  = [$"x"].
Proof. by vm_compute. Qed.

Example save_load_separator_chunk :
  load_processed_documents
    (Some (save_processed_documents [$"a" ++ separator ++ $"b"]))
  = [$"ab"].
Proof. by vm_compute. Qed.

Example save_load_carriage_return :
  load_processed_documents
    (Some (save_processed_documents [$"a" ++ [Py.cr] ++ $"b"]))
  = [$"a" ++ [Py.nl] ++ $"b"].
Proof. by vm_compute. Qed.

Example save_load_leading_blanks :
  load_processed_documents (Some (save_processed_documents [$"  a b "]))
  = [$"a b"].
Proof. by vm_compute. Qed.

(** C2, as the claim states it, fails: a chunk that quotes a chunk header
    comes back as two chunks, neither of them the original. *)
Lemma save_load_marker_chunk :
  load_processed_documents (Some (save_processed_documents [quoting]))
  = [$"the header"; $"opens a chunk"]
  ∧ length (load_processed_documents (Some (save_processed_documents [quoting])))
    ≠ length [quoting].
Proof. by vm_compute. Qed.

(** * Further properties *)

(** ** The chunker: errors, bounds and composition *)

Lemma lstrip_length (s : str) : length (Py.lstrip s) ≤ length s.
Proof.
  induction s as [|c s IH]; simpl; [done|].
  destruct (Py.is_space c); simpl; lia.
Qed.

Lemma strip_length (s : str) : length (Py.strip s) ≤ length s.
Proof.
  unfold Py.strip, Py.rstrip.
  etrans; [apply lstrip_length|].
  rewrite length_rev. etrans; [apply lstrip_length|]. by rewrite length_rev.
Qed.

Lemma slice_length {A} (s : list A) (lo hi : Z) :
  (0 ≤ lo)%Z → (0 ≤ hi)%Z →
  length (Py.slice s lo hi) ≤ length s
  ∧ (Z.of_nat (length (Py.slice s lo hi)) ≤ Z.max 0 (hi - lo))%Z.
Proof.
  intros Hlo Hhi. unfold Py.slice. rewrite length_take, length_drop.
  unfold Py.clamp.
  destruct (Z.ltb_spec lo 0), (Z.ltb_spec hi 0); lia.
Qed.

Lemma range_loop_backwards (fuel : nat) (stop step : Z) :
  (step ≤ 0)%Z → (0 ≤ stop)%Z → Py.range_loop fuel 0 stop step = [].
Proof.
  intros Hstep Hstop. destruct fuel as [|fuel]; simpl; [done|].
  destruct (Z.ltb_spec 0 step); [lia|].
  by destruct (Z.ltb_spec stop 0); [lia|].
Qed.

Lemma elem_of_concat {A} (x : A) (ls : list (list A)) :
  x ∈ concat ls → ∃ l, x ∈ l ∧ l ∈ ls.
Proof.
  rewrite list_elem_of_In, in_concat. intros (l & Hl & Hx).
  exists l. by rewrite !list_elem_of_In.
Qed.

Lemma kept_windows_elem (chunk_size : Z) (doc chunk : str) :
  chunk ∈ kept_windows chunk_size doc →
  50 < length (Py.strip chunk)
  ∧ length chunk ≤ length doc
  ∧ (Z.of_nat (length chunk) ≤ Z.max 0 chunk_size)%Z.
Proof.
  unfold kept_windows. intros [Hk Hin]%list_elem_of_filter.
  apply list_elem_of_fmap in Hin as (i & -> & Hi).
  unfold kept in Hk. apply Nat.ltb_lt in Hk.
  destruct (Z.ltb_spec 0 chunk_size) as [Hpos|Hneg].
  - apply list_elem_of_lookup in Hi as [k Hi].
    apply range_loop_lookup in Hi as [Hi _]; [|done].
    destruct (slice_length doc i (i + chunk_size)) as [H1 H2]; [lia|lia|].
    split_and!; [done|done|lia].
  - rewrite range_loop_backwards in Hi by lia. by apply elem_of_nil in Hi.
Qed.

(** X1.  A chunk size of zero makes [range] raise as soon as there is a
    document to chunk: [chunk_documents] raises [ValueError] exactly
    when the document list is not empty. *)
Theorem chunk_documents_zero_size (documents : list str) :
  (chunk_documents documents 0 = Raise ValueError ↔ documents ≠ [])
  ∧ (chunk_documents documents 0 = Ok [] ↔ documents = []).
Proof.
  destruct documents as [|doc documents]; [done|].
  split; split; done.
Qed.

(** X2.  For a chunk size above zero every chunk returned is longer than
    50 characters and no longer than the chunk size. *)
Theorem chunk_documents_length_bounds
    (documents : list str) (chunk_size : Z) out :
  (0 < chunk_size)%Z →
  chunk_documents documents chunk_size = Ok out →
  Forall (fun chunk => 50 < length chunk
                       ∧ (Z.of_nat (length chunk) ≤ chunk_size)%Z) out.
Proof.
  intros Hpos. rewrite chunk_documents_eq by lia. intros [= <-].
  apply Forall_forall. intros chunk Hin.
  apply elem_of_concat in Hin as (ws & Hin & Hws).
  apply list_elem_of_fmap in Hws as (doc & -> & _).
  apply kept_windows_elem in Hin as (Hk & _ & Hlen).
  pose proof (strip_length chunk). split; lia.
Qed.

Lemma chunk_documents_length_bounds_witness :
  Forall (fun chunk => 50 < length chunk
                       ∧ (Z.of_nat (length chunk) ≤ 1000)%Z) [padded].
Proof.
  apply (chunk_documents_length_bounds [padded] 1000 [padded]);
    [lia|reflexivity].
Defined.

(** X3.  With a chunk size of at most 50 (negative sizes included, zero
    apart) no window can pass the length filter: the result is the
    empty list, whatever the documents. *)
Theorem chunk_documents_small_size (documents : list str) (chunk_size : Z) :
  chunk_size ≠ 0%Z → (chunk_size ≤ 50)%Z →
  chunk_documents documents chunk_size = Ok [].
Proof.
  intros Hne Hle. rewrite chunk_documents_eq by done. f_equal.
  induction documents as [|doc documents IH]; simpl; [done|].
  rewrite IH, app_nil_r.
  destruct (kept_windows chunk_size doc) as [|chunk ws] eqn:E; [done|].
  assert (Hin : chunk ∈ kept_windows chunk_size doc) by (rewrite E; left).
  apply kept_windows_elem in Hin as (Hk & _ & Hlen).
  pose proof (strip_length chunk). lia.
Qed.

Lemma chunk_documents_small_size_witness :
  chunk_documents [padded; fox] 50 = Ok [].
Proof. apply (chunk_documents_small_size [padded; fox] 50); lia. Defined.

(** X4.  Documents are chunked one by one: the chunks of a list of
    documents are the chunks of its first part followed by the chunks of
    the rest, and no chunk spans two documents. *)
Theorem chunk_documents_app
    (documents1 documents2 : list str) (chunk_size : Z) out1 out2 :
  chunk_documents documents1 chunk_size = Ok out1 →
  chunk_documents documents2 chunk_size = Ok out2 →
  chunk_documents (documents1 ++ documents2) chunk_size = Ok (out1 ++ out2).
Proof.
  destruct (decide (chunk_size = 0%Z)) as [->|Hne].
  - destruct documents1, documents2; simpl; try done.
    by intros [= <-] [= <-].
  - rewrite !chunk_documents_eq by done. intros [= <-] [= <-].
    by rewrite map_app, concat_app.
Qed.

Lemma chunk_documents_app_witness :
  chunk_documents ([padded] ++ [fox; padded]) 1000 = Ok ([padded] ++ [padded]).
Proof.
  apply (chunk_documents_app [padded] [fox; padded] 1000 [padded] [padded]);
    reflexivity.
Defined.

(** X5.  A document of at most 50 characters yields no chunk, for every
    chunk size but zero. *)
Theorem chunk_documents_short_documents
    (documents : list str) (chunk_size : Z) :
  chunk_size ≠ 0%Z →
  Forall (fun doc => length doc ≤ 50) documents →
  chunk_documents documents chunk_size = Ok [].
Proof.
  intros Hne Hall. rewrite chunk_documents_eq by done. f_equal.
  induction Hall as [|doc documents Hdoc _ IH]; simpl; [done|].
  rewrite IH, app_nil_r.
  destruct (kept_windows chunk_size doc) as [|chunk ws] eqn:E; [done|].
  assert (Hin : chunk ∈ kept_windows chunk_size doc) by (rewrite E; left).
  apply kept_windows_elem in Hin as (Hk & Hlen & _).
  pose proof (strip_length chunk). lia.
Qed.

Lemma chunk_documents_short_documents_witness :
  chunk_documents [fox; $"short"] 10 = Ok [].
Proof.
  apply (chunk_documents_short_documents [fox; $"short"] 10); [lia|].
  repeat constructor; vm_compute; lia.
Defined.

(** X6.  A document that fits in one window and has more than 50
    characters once stripped comes out as exactly one chunk, the
    document itself. *)
Theorem chunk_documents_single_window (doc : str) (chunk_size : Z) :
  (Z.of_nat (length doc) ≤ chunk_size)%Z →
  50 < length (Py.strip doc) →
  chunk_documents [doc] chunk_size = Ok [doc].
Proof.
  intros Hfit Hlong. pose proof (strip_length doc) as Hs.
  rewrite chunk_documents_eq by lia. f_equal. simpl.
  rewrite app_nil_r. unfold kept_windows.
  rewrite Z.sub_0_r, Z.abs_eq, Nat2Z.id by lia.
  destruct (length doc) as [|n] eqn:Hn; [lia|].
  cbn [Py.range_loop].
  destruct (Z.ltb_spec 0 chunk_size); [|lia].
  destruct (Z.ltb_spec 0 (Z.of_nat (S n))); [|lia].
  assert (Hstop : Py.range_loop n (0 + chunk_size) (Z.of_nat (S n)) chunk_size = []).
  { destruct n; simpl; [done|].
    destruct (Z.ltb_spec 0 chunk_size); [|lia].
    by destruct (Z.ltb_spec (0 + chunk_size) (Z.of_nat (S (S n)))); [lia|]. }
  rewrite Hstop. simpl.
  assert (Hslice : Py.slice doc 0 (0 + chunk_size) = doc).
  { replace (0 + chunk_size)%Z with (Z.of_nat (Z.to_nat chunk_size)) by lia.
    rewrite slice_prefix. apply take_ge. lia. }
  rewrite Hslice, filter_cons, decide_True; [done|].
  unfold kept. by apply Nat.ltb_lt.
Qed.

Lemma chunk_documents_single_window_witness :
  chunk_documents [padded] 59 = Ok [padded].
Proof.
  apply (chunk_documents_single_window padded 59); vm_compute; [congruence|lia].
Defined.

(** ** The search: bounds, ranking and the tokenizer *)

Lemma scored_eq (query : str) (chunks : list str) :
  scored query chunks
  = map (fun chunk => (chunk, score_of query chunk))
        (filter (fun chunk => 0 < overlap query chunk) chunks).
Proof. done. Qed.

Lemma scored_elem (query : str) (chunks : list str) (r : str * Q) :
  r ∈ scored query chunks ↔
  r.1 ∈ chunks ∧ 0 < overlap query r.1 ∧ r.2 = score_of query r.1.
Proof.
  rewrite scored_eq, list_elem_of_fmap. split.
  - intros (chunk & -> & [Hpos Hin]%list_elem_of_filter). done.
  - intros (Hin & Hpos & Hs). exists r.1. split.
    + destruct r as [c s]. simpl in *. by rewrite Hs.
    + by apply list_elem_of_filter.
Qed.

Lemma search_elem (query : str) (chunks : list str) (max_results : Z) out r :
  simple_search query chunks max_results = Ok out →
  r ∈ out → r ∈ scored query chunks.
Proof.
  rewrite simple_search_eq, slice_from_start. intros [= <-] Hin.
  apply elem_of_take in Hin as (i & Hin & _).
  apply list_elem_of_lookup_2 in Hin.
  by rewrite sort_desc_Permutation in Hin.
Qed.

(** X7.  No score exceeds 1, and a returned chunk scores 1 exactly when
    it contains every word of the query. *)
Theorem simple_search_score_bound
    (query : str) (chunks : list str) (max_results : Z) :
  ∃ out, simple_search query chunks max_results = Ok out
    ∧ Forall (fun r : str * Q =>
                (r.2 <= 1)%Q
                ∧ ((r.2 == 1)%Q ↔ word_set query ⊆ word_set r.1))
             out.
Proof.
  eexists. split; [apply simple_search_eq|].
  apply Forall_forall. intros r Hin.
  apply (search_elem query chunks max_results _ r (simple_search_eq _ _ _))
    in Hin.
  apply scored_elem in Hin as (_ & Hpos & ->).
  pose proof (overlap_le_query query r.1) as Hle.
  assert (Hq : size (word_set query) ≠ 0) by lia.
  unfold score_of, Qle, Qeq. simpl.
  rewrite !Z.mul_1_r, Z.mul_1_l, Zpos_of_nat by done.
  split; [lia|]. split.
  - intros Heq. assert (Hsize : size (word_set query) ≤ overlap query r.1) by lia.
    pose proof (set_subseteq_size_eq (word_set query ∩ word_set r.1)
                  (word_set query) (intersection_subseteq_l _ _) Hsize) as Hi.
    rewrite <- Hi. apply intersection_subseteq_r.
  - intros Hsub. unfold overlap.
    by rewrite (subseteq_intersection_1_L _ _ Hsub).
Qed.

(** X8.  The results are the best ones: a chunk that shares a word with
    the query either is among the results, with its score, or scores no
    higher than every result. *)
Theorem simple_search_top
    (query : str) (chunks : list str) (max_results : Z) :
  ∃ out, simple_search query chunks max_results = Ok out
    ∧ Forall (fun chunk =>
                overlap query chunk = 0
                ∨ (chunk, score_of query chunk) ∈ out
                ∨ Forall (fun r : str * Q => (score_of query chunk <= r.2)%Q) out)
             chunks.
Proof.
  eexists. split; [apply simple_search_eq|].
  rewrite slice_from_start. set (k := Py.clamp _ _). clearbody k.
  apply Forall_forall. intros chunk Hin.
  destruct (decide (overlap query chunk = 0)) as [|Hpos]; [by left|right].
  assert (Hs : (chunk, score_of query chunk)
               ∈ Py.sort_desc snd (scored query chunks)).
  { rewrite sort_desc_Permutation. apply scored_elem. simpl.
    split_and!; [done|lia|done]. }
  rewrite <- (take_drop k (Py.sort_desc snd (scored query chunks))) in Hs.
  apply elem_of_app in Hs as [Hs|Hs]; [by left|right].
  apply Forall_forall. intros r Hr.
  pose proof (sort_desc_sorted snd (scored query chunks)) as Hsorted.
  rewrite <- (take_drop k (Py.sort_desc snd (scored query chunks))) in Hsorted.
  apply (StronglySorted_app_1_elem_of _ _ _ _ _ Hsorted Hr Hs).
Qed.

(** X9.  With room for at least one result, the search comes back empty
    exactly when no chunk shares a word with the query. *)
Theorem simple_search_empty_iff
    (query : str) (chunks : list str) (max_results : Z) :
  (0 < max_results)%Z →
  (simple_search query chunks max_results = Ok []
   ↔ Forall (fun chunk => overlap query chunk = 0) chunks).
Proof.
  intros Hm. rewrite simple_search_eq, slice_from_start.
  assert (Hlen : length (Py.sort_desc snd (scored query chunks))
                 = length (scored query chunks))
    by apply Permutation_length, sort_desc_Permutation.
  split.
  - intros [= Htake]. apply (f_equal length) in Htake.
    rewrite length_take, Hlen in Htake. unfold Py.clamp in Htake.
    destruct (Z.ltb_spec max_results 0); [lia|].
    assert (Hnil : scored query chunks = []).
    { apply length_zero_iff_nil. simpl in Htake. lia. }
    apply Forall_forall. intros chunk Hin.
    destruct (decide (overlap query chunk = 0)) as [|Hpos]; [done|].
    assert (Hs : (chunk, score_of query chunk) ∈ scored query chunks).
    { apply scored_elem. simpl. split_and!; [done|lia|done]. }
    rewrite Hnil in Hs. by apply elem_of_nil in Hs.
  - intros Hall. f_equal.
    assert (Hnil : scored query chunks = []).
    { clear Hlen. unfold scored.
      induction Hall as [|chunk chunks Hc _ IH]; [done|].
      rewrite filter_cons, decide_False by lia. exact IH. }
    rewrite Hnil. simpl. apply take_nil.
Qed.

Lemma simple_search_empty_iff_witness :
  simple_search $"elephant" [fox; padded] 4 = Ok []
  ↔ Forall (fun chunk => overlap $"elephant" chunk = 0) [fox; padded].
Proof. apply (simple_search_empty_iff $"elephant" [fox; padded] 4). lia. Defined.

(** *** The tokenizer *)

Lemma split_ws_from_space (cur a b : str) (w : ascii) :
  Py.is_space w = true →
  Py.split_ws_from cur (a ++ w :: b)
  = Py.split_ws_from cur a ++ Py.split_ws b.
Proof.
  intros Hw. revert cur. induction a as [|c a IH]; intros cur; simpl.
  - rewrite Hw. by destruct cur.
  - destruct (Py.is_space c); [|apply IH].
    destruct cur; [apply IH|]. simpl. f_equal. apply IH.
Qed.

Lemma split_ws_from_blank_end (cur s post : str) :
  blank post →
  Py.split_ws_from cur (s ++ post) = Py.split_ws_from cur s.
Proof.
  intros Hpost. revert cur. induction s as [|c s IH]; intros cur; simpl.
  - revert cur. induction Hpost as [|w post Hw _ IHp]; intros cur; [done|].
    simpl. rewrite Hw. destruct cur; rewrite IHp; done.
  - destruct (Py.is_space c); [|apply IH].
    destruct cur; [apply IH|]. f_equal. apply IH.
Qed.

Lemma split_ws_blank_start (pre s : str) :
  blank pre → Py.split_ws (pre ++ s) = Py.split_ws s.
Proof.
  unfold Py.split_ws. induction 1 as [|w pre Hw _ IH]; simpl; [done|].
  by rewrite Hw.
Qed.

Lemma lower_blank (s : str) : blank s → Py.lower s = s.
Proof.
  induction 1 as [|c s Hc _ IH]; simpl; [done|].
  by rewrite (lower_char_space c Hc), IH.
Qed.

Lemma lower_char_idem (c : ascii) :
  Py.lower_char (Py.lower_char c) = Py.lower_char c.
Proof. destruct c as [[] [] [] [] [] [] [] []]; by vm_compute. Qed.

Lemma lower_idem (s : str) : Py.lower (Py.lower s) = Py.lower s.
Proof.
  unfold Py.lower. rewrite map_map. apply map_ext. apply lower_char_idem.
Qed.

Lemma word_set_space (a b : str) (w : ascii) :
  Py.is_space w = true →
  word_set (a ++ w :: b) = word_set a ∪ word_set b.
Proof.
  intros Hw. unfold word_set, Py.lower, Py.split_ws.
  rewrite map_app. simpl. rewrite (lower_char_space w Hw).
  rewrite split_ws_from_space by done. apply list_to_set_app_L.
Qed.

Lemma word_set_lower (s : str) : word_set (Py.lower s) = word_set s.
Proof. unfold word_set. by rewrite lower_idem. Qed.

Lemma strip_nil_blank (s : str) : Py.strip s = [] → blank s.
Proof.
  unfold Py.strip, Py.rstrip. intros Hs.
  apply lstrip_nil_blank, blank_rev in Hs. rewrite rev_involutive in Hs.
  destruct (lstrip_split (rev s)) as (pre & Hpre & Hrev & _).
  rewrite <- (rev_involutive s), Hrev. apply blank_rev.
  by apply Forall_app.
Qed.

Lemma word_set_strip (s : str) : word_set (Py.strip s) = word_set s.
Proof.
  destruct (decide (Py.strip s = [])) as [Hnil|Hne].
  - rewrite Hnil. symmetry. apply blank_query_no_words.
    by apply strip_nil_blank.
  - destruct (strip_split s Hne) as (pre & post & Hpre & Hpost & _ & Hs).
    rewrite Hs at 2. unfold word_set, Py.lower.
    rewrite !map_app.
    fold (Py.lower pre) (Py.lower post) (Py.lower (Py.strip s)).
    rewrite (lower_blank pre), (lower_blank post) by done.
    rewrite split_ws_blank_start by done. unfold Py.split_ws.
    by rewrite split_ws_from_blank_end.
Qed.

Lemma simple_search_word_set (query1 query2 : str) chunks max_results :
  word_set query1 = word_set query2 →
  simple_search query1 chunks max_results
  = simple_search query2 chunks max_results.
Proof. intros Hq. unfold simple_search. by rewrite Hq. Qed.

(** X10.  The order of the words of a query and their repetition do not
    matter: swapping two parts of a query around a whitespace character,
    or writing the query twice, gives the same results. *)
Theorem simple_search_query_order
    (a b : str) (w : ascii) (chunks : list str) (max_results : Z) :
  Py.is_space w = true →
  simple_search (a ++ w :: b) chunks max_results
  = simple_search (b ++ w :: a) chunks max_results
  ∧ simple_search (a ++ w :: a) chunks max_results
    = simple_search a chunks max_results.
Proof.
  intros Hw. split; apply simple_search_word_set.
  - rewrite !word_set_space by done. apply union_comm_L.
  - rewrite word_set_space by done. apply union_idemp_L.
Qed.

Lemma simple_search_query_order_witness :
  simple_search ($"brown" ++ " "%char :: $"fox") [fox; padded] 4
  = simple_search ($"fox" ++ " "%char :: $"brown") [fox; padded] 4
  ∧ simple_search ($"brown" ++ " "%char :: $"brown") [fox; padded] 4
    = simple_search $"brown" [fox; padded] 4.
Proof.
  apply (simple_search_query_order $"brown" $"fox" " "%char [fox; padded] 4).
  reflexivity.
Defined.

(** Replacing every chunk by a text with the same words changes the
    chunks returned in the same way and nothing else. *)
Lemma insert_desc_map {A} (key : A → Q) (g : A → A) (x : A) (l : list A) :
  (∀ y, key (g y) = key y) →
  Py.insert_desc key (g x) (map g l) = map g (Py.insert_desc key x l).
Proof.
  intros Hg. induction l as [|y l IH]; simpl; [done|].
  rewrite !Hg. destruct (Qle_bool (key y) (key x)); [done|].
  simpl. by rewrite IH.
Qed.

Lemma sort_desc_map {A} (key : A → Q) (g : A → A) (l : list A) :
  (∀ y, key (g y) = key y) →
  Py.sort_desc key (map g l) = map g (Py.sort_desc key l).
Proof.
  intros Hg. induction l as [|x l IH]; simpl; [done|].
  by rewrite IH, insert_desc_map.
Qed.

Lemma simple_search_map (f : str → str) query chunks max_results :
  (∀ chunk, word_set (f chunk) = word_set chunk) →
  simple_search query (map f chunks) max_results
  = Ok (map (fun r : str * Q => (f r.1, r.2))
            (Py.slice (Py.sort_desc snd (scored query chunks)) 0 max_results)).
Proof.
  intros Hf. rewrite simple_search_eq. f_equal.
  assert (Hov : ∀ chunk, overlap query (f chunk) = overlap query chunk).
  { intros chunk. unfold overlap. by rewrite Hf. }
  assert (Hscored : scored query (map f chunks)
                    = map (fun r : str * Q => (f r.1, r.2)) (scored query chunks)).
  { unfold scored. induction chunks as [|chunk chunks IH]; simpl; [done|].
    rewrite !filter_cons, Hov.
    destruct (decide (0 < overlap query chunk)); [|done].
    simpl. by rewrite IH, Hov. }
  rewrite Hscored, sort_desc_map by done.
  rewrite !slice_from_start, length_map.
  set (k := Py.clamp _ _). clearbody k.
  generalize (Py.sort_desc snd (scored query chunks)). intros l.
  revert k. induction l as [|x l IH]; intros [|k]; simpl; try done.
  by rewrite IH.
Qed.

(** X11.  The search ignores case: lower-casing the query changes
    nothing, and lower-casing the chunks changes only the chunk texts
    returned, neither their scores nor their order. *)
Theorem simple_search_case
    (query : str) (chunks : list str) (max_results : Z) :
  simple_search (Py.lower query) chunks max_results
  = simple_search query chunks max_results
  ∧ ∃ out, simple_search query chunks max_results = Ok out
      ∧ simple_search query (map Py.lower chunks) max_results
        = Ok (map (fun r : str * Q => (Py.lower r.1, r.2)) out).
Proof.
  split; [apply simple_search_word_set, word_set_lower|].
  eexists. split; [apply simple_search_eq|].
  apply simple_search_map, word_set_lower.
Qed.

(** X12.  Stripping the chunks, as saving and loading them does, changes
    only the chunk texts returned, neither their scores nor their
    order. *)
Theorem simple_search_stripped
    (query : str) (chunks : list str) (max_results : Z) :
  ∃ out, simple_search query chunks max_results = Ok out
    ∧ simple_search query (map Py.strip chunks) max_results
      = Ok (map (fun r : str * Q => (Py.strip r.1, r.2)) out).
Proof.
  eexists. split; [apply simple_search_eq|].
  apply simple_search_map, word_set_strip.
Qed.

(** ** Persistence: the pipeline, saving again, and stray text *)

Lemma starts_with_extend (sep a b : str) :
  Py.starts_with sep a = true → Py.starts_with sep (a ++ b) = true.
Proof.
  intros H. apply starts_with_inv in H. rewrite H, <- app_assoc.
  apply starts_with_app.
Qed.

Lemma find_None_prefix (sep a b : str) :
  Py.find sep (a ++ b) = None → Py.find sep a = None.
Proof.
  induction a as [|c a IH]; intros H.
  - rewrite find_unfold in H |- *.
    destruct (Py.starts_with sep []) eqn:E; [|done].
    by rewrite (starts_with_extend sep [] b E) in H.
  - rewrite find_unfold in H. rewrite find_unfold.
    destruct (Py.starts_with sep (c :: a)) eqn:E.
    + by rewrite (starts_with_extend sep (c :: a) b E) in H.
    + simpl app in H. destruct (Py.starts_with sep (c :: a ++ b)); [done|].
      destruct (Py.find sep (a ++ b)) eqn:Hab; [done|].
      by rewrite IH.
Qed.

Lemma find_None_infix (sep pre mid post : str) :
  Py.find sep (pre ++ mid ++ post) = None → Py.find sep mid = None.
Proof.
  intros H. apply (find_None_drop _ _ (length pre)) in H.
  rewrite drop_app_length in H. by apply find_None_prefix in H.
Qed.

Lemma slice_infix {A} (s : list A) (lo hi : Z) :
  ∃ pre post, s = pre ++ Py.slice s lo hi ++ post.
Proof.
  unfold Py.slice. set (l := Py.clamp _ lo). set (n := _ - _).
  exists (take l s), (drop n (drop l s)).
  by rewrite take_drop, take_drop.
Qed.

Lemma clean_window_storable (doc : str) (lo hi : Z) :
  clean doc → Py.strip (Py.slice doc lo hi) ≠ [] →
  storable (Py.slice doc lo hi).
Proof.
  intros (Hm & Hs & Hcr) Hne.
  destruct (slice_infix doc lo hi) as (pre & post & Hdoc).
  split_and!; [| | |done].
  - apply (find_None_infix _ pre _ post). by rewrite <- Hdoc.
  - apply (find_None_infix _ pre _ post). by rewrite <- Hdoc.
  - intros Hin. apply Hcr. rewrite Hdoc, !elem_of_app. auto.
Qed.

Lemma load_save_storable (chunks : list str) :
  Forall storable chunks →
  load_processed_documents (Some (save_processed_documents chunks))
  = map Py.strip chunks.
Proof.
  intros Hall. rewrite load_eq, save_eq, universal_newlines_id.
  - rewrite split_blocks by done. by apply parse_tails.
  - by apply blocks_lack_cr.
Qed.

(** The chunks of clean documents are chunks the format can carry. *)
Lemma clean_chunks_storable
    (documents : list str) (chunk_size : Z) (chunks : list str) :
  Forall clean documents →
  chunk_documents documents chunk_size = Ok chunks →
  Forall storable chunks.
Proof.
  intros Hclean Hchunks.
  apply Forall_forall. intros chunk Hin.
  destruct (chunk_documents_windows _ _ _ Hchunks chunk Hin)
    as (Hk & doc & ws & Hdoc & Hws & Hw).
  rewrite Forall_forall in Hclean. specialize (Hclean doc Hdoc).
  unfold candidate_windows in Hws.
  destruct (Py.range 0 (Z.of_nat (length doc)) chunk_size) as [idxs|]; [|done].
  simpl in Hws. injection Hws as <-.
  apply list_elem_of_fmap in Hw as (i & -> & _).
  apply clean_window_storable; [done|].
  unfold kept in Hk. apply Nat.ltb_lt in Hk.
  intros Hnil. rewrite Hnil in Hk. simpl in Hk. lia.
Qed.

(** X13.  The ingestion pipeline round-trips: when no document holds the
    marker, a run of 50 [=] or a carriage return, the chunks the chunker
    produces are read back from the file it is saved to, as many and in
    order, each with the whitespace at its ends stripped. *)
Theorem ingest_roundtrip
    (documents : list str) (chunk_size : Z) (chunks : list str) :
  Forall clean documents →
  chunk_documents documents chunk_size = Ok chunks →
  load_processed_documents (Some (save_processed_documents chunks))
  = map Py.strip chunks.
Proof.
  intros Hclean Hchunks. apply load_save_storable.
  by apply (clean_chunks_storable documents chunk_size).
Qed.

Lemma ingest_roundtrip_witness :
  load_processed_documents (Some (save_processed_documents [padded]))
  = map Py.strip [padded].
Proof.
  apply (ingest_roundtrip [fox; padded] 1000 [padded]);
    [by compute_done|reflexivity].
Defined.

Lemma storable_strip (chunk : str) : storable chunk → storable (Py.strip chunk).
Proof.
  intros (Hm & Hs & Hcr & Hne).
  destruct (strip_split chunk Hne) as (pre & post & _ & _ & Htrim & Hc).
  split_and!.
  - apply (find_None_infix _ pre _ post). by rewrite <- Hc.
  - apply (find_None_infix _ pre _ post). by rewrite <- Hc.
  - intros Hin. apply Hcr. rewrite Hc, !elem_of_app. auto.
  - by rewrite strip_trimmed_id.
Qed.

Lemma strip_idem (s : str) : Py.strip (Py.strip s) = Py.strip s.
Proof.
  destruct (decide (Py.strip s = [])) as [->|Hne]; [done|].
  destruct (strip_split s Hne) as (_ & _ & _ & _ & Htrim & _).
  by apply strip_trimmed_id.
Qed.

(** X14.  Saving what was loaded is stable: for chunks the format can
    carry, the chunks read back from the file can be saved and read
    again, any number of times, and stay as they are. *)
Theorem save_load_stable (chunks : list str) :
  Forall storable chunks →
  load_processed_documents
    (Some (save_processed_documents
             (load_processed_documents
                (Some (save_processed_documents chunks)))))
  = load_processed_documents (Some (save_processed_documents chunks)).
Proof.
  intros Hall. rewrite (load_save_storable chunks Hall).
  rewrite load_save_storable.
  - rewrite map_map. apply map_ext. intros chunk. apply strip_idem.
  - apply Forall_forall. intros c Hin.
    apply list_elem_of_fmap in Hin as (chunk & -> & Hin).
    rewrite Forall_forall in Hall. by apply storable_strip, Hall.
Qed.

Lemma save_load_stable_witness :
  load_processed_documents
    (Some (save_processed_documents
             (load_processed_documents
                (Some (save_processed_documents [padded; fox])))))
  = load_processed_documents (Some (save_processed_documents [padded; fox])).
Proof. apply (save_load_stable [padded; fox]). by compute_done. Defined.

(** X15.  The reader returns at most one chunk for each marker in the
    file, and none for a file without a marker, the empty file
    included. *)
Theorem load_at_most_markers (raw : str) :
  length (load_processed_documents (Some raw))
  ≤ length (Py.split marker (Py.universal_newlines raw)) - 1
  ∧ (Py.find marker (Py.universal_newlines raw) = None →
     load_processed_documents (Some raw) = []).
Proof.
  rewrite load_eq. split.
  - etrans; [apply length_filter|]. by rewrite length_map, length_drop.
  - intros Hnone. rewrite split_unfold, Hnone by apply marker_not_nil. done.
Qed.

Lemma load_at_most_markers_witness :
  length (load_processed_documents (Some fox))
  ≤ length (Py.split marker (Py.universal_newlines fox)) - 1
  ∧ (Py.find marker (Py.universal_newlines fox) = None →
     load_processed_documents (Some fox) = []).
Proof. exact (load_at_most_markers fox). Defined.

Lemma universal_newlines_app (pre s : str) :
  Py.cr ∉ pre →
  Py.universal_newlines (pre ++ s) = pre ++ Py.universal_newlines s.
Proof.
  induction pre as [|c pre IH]; intros Hpre; [done|].
  apply not_elem_of_cons in Hpre as [Hc Hpre].
  cbn [app Py.universal_newlines]. rewrite decide_False by done.
  by rewrite IH.
Qed.

(** X16.  Whatever lines stand before the first marker are ignored: the
    file reads the same with and without them. *)
Theorem load_skips_preamble (lines : list str) (rest : str) :
  Forall (fun line => Py.find marker line = None ∧ Py.cr ∉ line) lines →
  load_processed_documents
    (Some (concat (map (fun line => line ++ [Py.nl]) lines) ++ marker ++ rest))
  = load_processed_documents (Some (marker ++ rest)).
Proof.
  intros Hlines. rewrite !load_eq.
  set (pre := concat _).
  assert (Hcr : Py.cr ∉ pre).
  { subst pre. induction Hlines as [|line lines [_ Hl] _ IH]; simpl.
    - apply not_elem_of_nil.
    - rewrite !not_elem_of_app. split_and!; [done|by compute_done|done]. }
  assert (Hskip : skips marker pre).
  { subst pre. apply skips_lines; [done|by compute_done|].
    eapply Forall_impl; [exact Hlines|]. by intros line [? _]. }
  rewrite universal_newlines_app by done.
  rewrite !(universal_newlines_app marker) by compute_done.
  rewrite split_skips by (done || apply marker_not_nil).
  pose proof (split_skips marker [] (Py.universal_newlines rest)
                marker_not_nil (skips_nil marker)) as Hhead.
  rewrite app_nil_l in Hhead. by rewrite Hhead.
Qed.

Lemma load_skips_preamble_witness :
  load_processed_documents
    (Some (concat (map (fun line => line ++ [Py.nl]) [fox; $"a note"])
           ++ marker ++ $" 1 ===" ++ [Py.nl] ++ padded))
  = load_processed_documents
      (Some (marker ++ $" 1 ===" ++ [Py.nl] ++ padded)).
Proof.
  apply (load_skips_preamble [fox; $"a note"] ($" 1 ===" ++ [Py.nl] ++ padded)).
  by compute_done.
Defined.

(** ** The loader *)

Lemma omap_cons_Some {A B} (f : A → option B) (x : A) (y : B) (l : list A) :
  f x = Some y → omap f (x :: l) = y :: omap f l.
Proof. intros H. simpl. by rewrite H. Qed.

Lemma omap_cons_None {A B} (f : A → option B) (x : A) (l : list A) :
  f x = None → omap f (x :: l) = omap f l.
Proof. intros H. simpl. by rewrite H. Qed.

Lemma omap_length {A B} (f : A → option B) (l : list A) :
  length (omap f l) ≤ length l.
Proof.
  induction l as [|x l IH]; [done|].
  destruct (f x) as [y|] eqn:E.
  - rewrite (omap_cons_Some f x y l E). simpl. lia.
  - rewrite (omap_cons_None f x l E). simpl. lia.
Qed.

Lemma load_loop_omap (fs : Os.files) (files : list str) (documents : list str) :
  fold_left
    (fun documents file_path =>
       if ends_with $".pdf" file_path
       then match Os.pdf_pages fs file_path with
            | Some pages =>
                let text := fold_left (fun text page => text ++ page) pages [] in
                documents ++ [$"File: " ++ file_path ++ [Py.nl; Py.nl] ++ text]
            | None => documents
            end
       else match Os.read_text fs file_path with
            | Some content =>
                documents ++ [$"File: " ++ file_path ++ [Py.nl; Py.nl] ++ content]
            | None => documents
            end)
    files documents
  = documents ++ omap (document_of fs) files.
Proof.
  revert documents.
  induction files as [|file_path files IH]; intros documents.
  - by rewrite app_nil_r.
  - cbn [fold_left]. rewrite IH.
    destruct (ends_with $".pdf" file_path) eqn:Hpdf.
    + destruct (Os.pdf_pages fs file_path) as [pages|] eqn:Hp.
      * rewrite (omap_cons_Some (document_of fs) file_path _ files)
          by (unfold document_of; by rewrite Hpdf, Hp).
        by rewrite <- app_assoc.
      * by rewrite (omap_cons_None (document_of fs) file_path files)
          by (unfold document_of; by rewrite Hpdf, Hp).
    + destruct (Os.read_text fs file_path) as [content|] eqn:Hr.
      * rewrite (omap_cons_Some (document_of fs) file_path _ files)
          by (unfold document_of; by rewrite Hpdf, Hr).
        by rewrite <- app_assoc.
      * by rewrite (omap_cons_None (document_of fs) file_path files)
          by (unfold document_of; by rewrite Hpdf, Hr).
Qed.

(** X17.  The loader never stops at a file it cannot read: its result
    is, in the order of the text, Markdown and PDF files the three globs
    list, one document for each file that could be read, none for the
    others; so there are at most as many documents as files, and each
    starts with the line naming its file. *)
Theorem load_documents_files (fs : Os.files) (source_dir : str) :
  let files :=
    Os.glob fs (Os.path_join source_dir $"**/*.txt")
    ++ Os.glob fs (Os.path_join source_dir $"**/*.md")
    ++ Os.glob fs (Os.path_join source_dir $"**/*.pdf") in
  load_documents fs source_dir = omap (document_of fs) files
  ∧ length (load_documents fs source_dir) ≤ length files
  ∧ Forall (fun doc =>
              ∃ file_path text,
                file_path ∈ files
                ∧ doc = $"File: " ++ file_path ++ [Py.nl; Py.nl] ++ text)
           (load_documents fs source_dir).
Proof.
  intros files.
  assert (Heq : load_documents fs source_dir = omap (document_of fs) files).
  { unfold load_documents. cbv zeta. rewrite load_loop_omap.
    subst files. simpl. by rewrite <- app_assoc. }
  rewrite Heq. split_and!; [done|apply omap_length|].
  apply Forall_forall. intros doc Hin.
  apply list_elem_of_omap in Hin as (file_path & Hfile & Hdoc).
  exists file_path. unfold document_of in Hdoc.
  destruct (ends_with $".pdf" file_path).
  - destruct (Os.pdf_pages fs file_path) as [pages|]; [|done].
    injection Hdoc as <-. by eexists.
  - destruct (Os.read_text fs file_path) as [content|]; [|done].
    injection Hdoc as <-. by eexists.
Qed.

(** ** The two main functions *)

Lemma save_nil : save_processed_documents [] = [].
Proof. done. Qed.

(** X18.  Ingestion leaves the processed file as it was when the source
    directory is missing or no document could be read.  Otherwise it
    overwrites the file with the chunks of the documents, cut at 1000
    characters; and when no document holds the marker, a run of 50 [=]
    or a carriage return, reading the file yields those chunks,
    stripped. *)
Theorem ingest_main_file (fs : Os.files) (old : option str) :
  let documents := load_documents fs $"source_documents" in
  (Os.exists_path fs $"source_documents" = false ∨ documents = [] →
   SimpleIngest.main fs old = old)
  ∧ (Os.exists_path fs $"source_documents" = true → documents ≠ [] →
     ∃ chunks,
       chunk_documents documents 1000 = Ok chunks
       ∧ SimpleIngest.main fs old = Some (save_processed_documents chunks)
       ∧ (Forall clean documents →
          load_processed_documents (SimpleIngest.main fs old)
          = map Py.strip chunks)).
Proof.
  intros documents. unfold SimpleIngest.main. cbv zeta. fold documents.
  split.
  - intros [-> | ->]; [done|]. by destruct (negb _).
  - intros -> Hne. simpl.
    destruct (chunk_documents_total documents 1000) as [chunks Hchunks]; [done|].
    exists chunks. rewrite Hchunks.
    destruct documents as [|doc docs] eqn:Hdocs; [done|].
    split_and!; [done|done|].
    intros Hclean. apply load_save_storable.
    by apply (clean_chunks_storable (doc :: docs) 1000).
Qed.

Lemma short_documents_unchunked (documents : list str) :
  Forall (fun doc => length doc ≤ 50) documents →
  chunk_documents documents 1000 = Ok [].
Proof.
  intros Hall. rewrite chunk_documents_eq by done. f_equal.
  induction Hall as [|doc documents Hdoc _ IH]; simpl; [done|].
  rewrite IH, app_nil_r.
  destruct (kept_windows 1000 doc) as [|chunk ws] eqn:E; [done|].
  assert (Hin : chunk ∈ kept_windows 1000 doc) by (rewrite E; left).
  apply kept_windows_elem in Hin as (Hk & Hlen & _).
  pose proof (strip_length chunk). lia.
Qed.

(** X19.  When the source directory exists, at least one document is
    read and every document read has at most 50 characters, ingestion
    overwrites the processed file with an empty one, whatever it held,
    and the chat started on it stops before its first question.  (When
    no document is read the file is left as it was.) *)
Theorem ingest_short_then_chat
    (fs : Os.files) (old : option str)
    (format_2f : Q → str) (o : ollama) (events : list event) :
  Os.exists_path fs $"source_documents" = true →
  load_documents fs $"source_documents" ≠ [] →
  Forall (fun doc => length doc ≤ 50) (load_documents fs $"source_documents") →
  SimpleIngest.main fs old = Some []
  ∧ SimplePrivateGPT.main format_2f o (SimpleIngest.main fs old) events = [].
Proof.
  intros Hdir Hne Hshort.
  assert (Hmain : SimpleIngest.main fs old = Some []).
  { unfold SimpleIngest.main. cbv zeta. rewrite Hdir. simpl.
    rewrite short_documents_unchunked by done.
    by destruct (load_documents fs _). }
  split; [done|]. rewrite Hmain. reflexivity.
Qed.

Lemma ingest_main_file_witness :
  ∃ chunks,
    chunk_documents (load_documents sample_files $"source_documents") 1000
    = Ok chunks
    ∧ SimpleIngest.main sample_files None
      = Some (save_processed_documents chunks)
    ∧ (Forall clean (load_documents sample_files $"source_documents") →
       load_processed_documents (SimpleIngest.main sample_files None)
       = map Py.strip chunks).
Proof.
  apply (ingest_main_file sample_files None); [reflexivity|by vm_compute].
Defined.

Lemma ingest_short_then_chat_witness :
  SimpleIngest.main short_files (Some (save_processed_documents [padded]))
  = Some []
  ∧ SimplePrivateGPT.main (fun _ => $"1.00") sample_ollama
      (SimpleIngest.main short_files (Some (save_processed_documents [padded])))
      [Line $"filter"] = [].
Proof.
  apply (ingest_short_then_chat short_files
           (Some (save_processed_documents [padded]))
           (fun _ => $"1.00") sample_ollama [Line $"filter"]);
    [reflexivity|by vm_compute|].
  repeat constructor; vm_compute; lia.
Defined.

(** What the sample directory gives: the unreadable file is passed over,
    the other two become documents, and both come out as one chunk. *)
Example ingest_sample :
  length (load_documents sample_files $"source_documents") = 2
  ∧ ∃ chunks,
      chunk_documents (load_documents sample_files $"source_documents") 1000
      = Ok chunks ∧ length chunks = 2.
Proof. split; [by vm_compute|]. eexists. split; by vm_compute. Qed.

(** ** The chat loop *)

Lemma scored_nil_iff (query : str) (chunks : list str) :
  scored query chunks = []
  ↔ Forall (fun chunk => overlap query chunk = 0) chunks.
Proof.
  unfold scored. induction chunks as [|chunk chunks IH]; [done|].
  rewrite filter_cons, Forall_cons.
  destruct (decide (0 < overlap query chunk)) as [Hpos|Hzero].
  - split; [done|]. intros [Hz _]. lia.
  - rewrite IH. split; [|by intros [_ ?]]. intros Hall. split; [lia|done].
Qed.

Lemma search_four (query : str) (chunks : list str) :
  ∃ out, simple_search query chunks 4 = Ok out
         ∧ length out ≤ 4
         ∧ (out = [] ↔ Forall (fun chunk => overlap query chunk = 0) chunks).
Proof.
  eexists. split; [apply simple_search_eq|].
  rewrite (slice_prefix _ 4), <- scored_nil_iff.
  assert (Hlen : length (Py.sort_desc snd (scored query chunks))
                 = length (scored query chunks))
    by apply Permutation_length, sort_desc_Permutation.
  split; [rewrite length_take; lia|].
  destruct (scored query chunks) as [|r l] eqn:Hs; [done|].
  destruct (Py.sort_desc snd (r :: l)) as [|r' l']; [done|].
  split; done.
Qed.

(** X20.  The questions the chat answers are, in order, the lines typed
    before the first interrupt or [exit] (in any case, blanks around it
    ignored) that are not blank and share a word with some chunk; lines
    after the stop are never looked at, and a failure of the model on one
    question does not keep the later ones from being answered. *)
Theorem chat_loop_answered
    (format_2f : Q → str) (o : ollama) (chunks : list str)
    (events : list event) :
  map turn_query (SimplePrivateGPT.chat_loop format_2f o chunks events)
  = filter (fun query =>
              query ≠ [] ∧ Exists (fun chunk => 0 < overlap query chunk) chunks)
           (asked events).
Proof.
  induction events as [|[text|] events IH]; [done| |done].
  cbn [SimplePrivateGPT.chat_loop asked].
  destruct (decide (Py.lower (Py.strip text) = $"exit")); [done|].
  rewrite filter_cons.
  destruct (decide (Py.strip text = [])) as [Hnil|Hne].
  { rewrite decide_False by (by intros [? _]). done. }
  destruct (search_four (Py.strip text) chunks) as (out & Hout & _ & Hiff).
  rewrite Hout. destruct out as [|r out].
  - rewrite decide_False; [done|].
    intros [_ Hex]. apply Exists_exists in Hex as (chunk & Hin & Hpos).
    destruct Hiff as [Hall _]. specialize (Hall eq_refl).
    rewrite Forall_forall in Hall. specialize (Hall chunk Hin). lia.
  - rewrite decide_True.
    + cbn [map turn_query]. by rewrite IH.
    + split; [done|]. apply Exists_exists.
      destruct (decide (Forall (fun chunk => overlap (Py.strip text) chunk = 0)
                               chunks)) as [Hall|Hnot].
      * by apply Hiff in Hall.
      * apply not_Forall_Exists in Hnot; [|intros ?; apply _].
        apply Exists_exists in Hnot as (chunk & Hin & Hpos).
        exists chunk. split; [done|]. simpl in Hpos. lia.
Qed.

Lemma format_context_some (format_2f : Q → str) r rs :
  format_context format_2f (r :: rs) ≠ no_results.
Proof.
  unfold format_context. cbv zeta. rewrite format_loop.
  intros H. apply (f_equal head) in H. by vm_compute in H.
Qed.

(** X21.  Every question the chat session answers was put to the model
    only after the start-up checks passed (chunks were loaded, the client
    is available, the probe [Hello] was answered); its prompt is built
    from the question and the context of one to four search results,
    never from the sentence for no results; and its answer is what the
    model returned for that prompt, or the query error. *)
Theorem chat_main_turns
    (format_2f : Q → str) (o : ollama) (file : option str)
    (events : list event) :
  Forall (fun t =>
            load_processed_documents file ≠ []
            ∧ available o = true
            ∧ is_Some (invoke o $"mistral" $"Hello")
            ∧ turn_query t ≠ []
            ∧ Py.strip (turn_query t) = turn_query t
            ∧ ∃ results,
                simple_search (turn_query t) (load_processed_documents file) 4
                = Ok results
                ∧ 1 ≤ length results ≤ 4
                ∧ turn_found t = length results
                ∧ format_context format_2f results ≠ no_results
                ∧ turn_prompt t
                  = create_prompt (turn_query t)
                                  (format_context format_2f results)
                ∧ turn_answer t
                  = match invoke o $"mistral" (turn_prompt t) with
                    | Some response => Response response
                    | None => QueryError
                    end)
         (SimplePrivateGPT.main format_2f o file events).
Proof.
  unfold SimplePrivateGPT.main. cbv zeta.
  destruct (load_processed_documents file) as [|chunk0 chunks0] eqn:Hload;
    [constructor|].
  destruct (available o) eqn:Hav; [|constructor].
  destruct (invoke o $"mistral" $"Hello") as [hello|] eqn:Hprobe; [|constructor].
  set (chunks := chunk0 :: chunks0) in *.
  induction events as [|[text|] events IH]; [constructor| |constructor].
  cbn [SimplePrivateGPT.chat_loop].
  destruct (decide (Py.lower (Py.strip text) = $"exit")); [constructor|].
  destruct (decide (Py.strip text = [])) as [Hnil|Hne]; [exact IH|].
  destruct (search_four (Py.strip text) chunks) as (out & Hout & Hlen & Hiff).
  rewrite Hout. destruct out as [|r out]; [exact IH|].
  constructor; [|exact IH]. cbn [turn_query turn_prompt turn_answer turn_found].
  split_and!; try done.
  - apply strip_idem.
  - exists (r :: out). rewrite Hout. simpl in Hlen.
    split_and!; try done; try (simpl; lia).
    + apply format_context_some.
    + unfold query_ollama. by rewrite Hav.
Qed.
